(** * snykwire: a guarded [require] over Node's module cache

    The development embeds [src/snykwire.js].  The exported function swaps
    the process-wide [Module._cache] for a [Proxy] whose traps consult a
    policy (blacklist, whitelist or bare mode), runs the host loader and puts
    the displaced reference back in a [finally] block.

    Modelling choices:
    - a cache reference is either a plain object, named by its heap location,
      or a proxy with an identity of its own, a target reference and the
      closure environment of its handler;
    - plain cache objects live in a heap, so that every reference to the same
      object sees the same mutations;
    - plain cache objects are mappings from keys to values (the loader
      creates the cache without a prototype) whose properties are ordinary
      data properties; the state records which plain objects have been made
      non-extensible, and such an object takes no new key;
    - [snykwire.js] has no strict-mode directive, so the assignment in its
      [set] trap does nothing, silently, where it cannot add the key; the
      host loader's own assignment to the cache is strict and throws there;
    - keys are strings and the truthiness tests of the source are booleans;
    - [require.resolve] and the host loader are collaborators: the resolver
      is a section variable and the loader is a state transformer; loaded
      code is a finite program that acts on the installed [Module._cache],
      through the operations the proxy traps and through three it does not
      trap and forwards to its target ([Object.defineProperty] with an
      ordinary data descriptor, [Object.getOwnPropertyDescriptor] and the
      listing of own keys behind [Object.keys] and [Reflect.ownKeys], whose
      order is not modelled). *)

From Stdlib Require Import Ascii.
From stdpp Require Import base option list strings gmap sets.

Local Open Scope string_scope.

(** ** Values and errors *)

Inductive value :=
| VUndefined
| VBool (b : bool)
| VStr (s : string)
| VModule (exports : value).

(** Every failure of [snykwire.js] is a plain [Error] that differs in its
    message only; the constructors keep the origin apart.  The two
    [Cannot...] errors are the engine's [TypeError]s for a key that a
    non-extensible object does not take. *)
Inductive error :=
| BothListsError
| BareWithListError
| CannotFindModule (request : string)
| ForbiddenAction (moduleName resolvedName : string)
| LockAttempt (moduleName : string)
| CannotAddProperty (k : string)
| CannotDefineProperty (k : string)
| Thrown (v : value).

Definition message (e : error) : option string :=
  match e with
  | BothListsError =>
      Some "You cannot snykwire with both a blacklist and a whitelist"
  | BareWithListError =>
      Some "You cannot use bare snykwire with either a blacklist or a whitelist"
  | ForbiddenAction moduleName resolvedName =>
      Some ("Module '" ++ moduleName ++
            "' has attempted forbidden action with module '" ++
            resolvedName ++ "'")
  | LockAttempt moduleName =>
      Some ("Module '" ++ moduleName ++ "' tried to lock your module cache")
  | CannotFindModule _ | CannotAddProperty _ | CannotDefineProperty _
  | Thrown _ => None
  end.

(** The taxonomy of the specification. *)
Inductive error_kind :=
| ConfigurationError
| ResolutionError
| AccessViolationError
| ModuleFailure.

Definition kind_of (e : error) : error_kind :=
  match e with
  | BothListsError | BareWithListError => ConfigurationError
  | CannotFindModule _ => ResolutionError
  | ForbiddenAction _ _ | LockAttempt _ => AccessViolationError
  | CannotAddProperty _ | CannotDefineProperty _ | Thrown _ => ModuleFailure
  end.

Inductive result (A : Type) :=
| Ok (a : A)
| Err (e : error).
Arguments Ok {A} a.
Arguments Err {A} e.

(** ** References, heap and global state *)

Definition loc := nat.

(** The closure environment of [getEnsurer]. *)
Record policy := Policy {
  blacklist : gset string;
  whitelist : gset string;
  bare : bool;
  moduleName : string
}.

Inductive cache_ref :=
| Plain (l : loc)
| Proxy (id : nat) (target : cache_ref) (p : policy).

Record state := State {
  Module_cache : cache_ref;
  heap : gmap loc (gmap string value);
  next_proxy : nat;
  non_extensible : gset loc
}.

Definition set_Module_cache (c : cache_ref) (s : state) : state :=
  {| Module_cache := c; heap := heap s; next_proxy := next_proxy s;
     non_extensible := non_extensible s |}.

Definition update_object (l : loc)
    (f : gmap string value → gmap string value) (s : state) : state :=
  {| Module_cache := Module_cache s;
     heap := <[l := f (heap s !!! l)]> (heap s);
     next_proxy := next_proxy s;
     non_extensible := non_extensible s |}.

(** [Object.preventExtensions] on the plain object at [l]. *)
Definition lock_object (l : loc) (s : state) : state :=
  {| Module_cache := Module_cache s;
     heap := heap s;
     next_proxy := next_proxy s;
     non_extensible := {[l]} ∪ non_extensible s |}.

(** The plain object at [l] takes a value under [k]: it holds the key
    already, or it is extensible. *)
Definition accepts (s : state) (l : loc) (k : string) : Prop :=
  is_Some ((heap s !!! l) !! k) ∨ l ∉ non_extensible s.

#[global] Instance accepts_dec s l k : Decision (accepts s l k).
Proof. unfold accepts. apply _. Defined.

(** The plain object at the bottom of a chain of proxies. *)
Fixpoint underlying (c : cache_ref) : loc :=
  match c with
  | Plain l => l
  | Proxy _ target _ => underlying target
  end.

(** The handlers met on the way down, outermost first. *)
Fixpoint policies (c : cache_ref) : list policy :=
  match c with
  | Plain _ => []
  | Proxy _ target p => p :: policies target
  end.

(** ** A state and exception monad *)

Definition M (A : Type) : Type := state → result A * state.

Definition ret {A} (a : A) : M A := λ s, (Ok a, s).
Definition throw {A} (e : error) : M A := λ s, (Err e, s).
Definition bind {A B} (m : M A) (f : A → M B) : M B :=
  λ s, match m s with
       | (Ok a, s') => f a s'
       | (Err e, s') => (Err e, s')
       end.
Definition lift {A} (r : result A) : M A := λ s, (r, s).

(** [try { m } finally { fin }]: [fin] runs on every exit of [m]; the outcome
    of [m] stands unless [fin] itself throws. *)
Definition try_finally {A} (m : M A) (fin : M unit) : M A :=
  λ s, match m s with
       | (r, s') =>
           match fin s' with
           | (Ok _, s'') => (r, s'')
           | (Err e, s'') => (Err e, s'')
           end
       end.

Notation "'let*' x ':=' m 'in' f" := (bind m (λ x, f))
  (at level 10, x name, m at level 100, f at level 200).
Notation "m ';;;' f" := (bind m (λ _, f))
  (at level 100, f at level 200, right associativity).

Section Snykwire.

(** [require.resolve]: [None] stands for the loader's "Cannot find module". *)
Variable resolve : string → option string.

Definition require_resolve (request : string) : result string :=
  match resolve request with
  | Some resolvedName => Ok resolvedName
  | None => Err (CannotFindModule request)
  end.

(** ** The policy (lines 3-18) *)

Definition isBlacklisted (blacklist : gset string) (resolvedName : string) : bool :=
  negb (Nat.eqb (size blacklist) 0) && bool_decide (resolvedName ∈ blacklist).

Definition isWhitelisted (whitelist : gset string) (resolvedName : string) : bool :=
  negb (Nat.eqb (size whitelist) 0) && negb (bool_decide (resolvedName ∈ whitelist)).

(** [bare && require.resolve(moduleName) !== resolvedName] only resolves when
    [bare] holds, and the resolver may throw there. *)
Definition isForbidden (blacklist whitelist : gset string) (bare : bool)
    (moduleName resolvedName : string) : result bool :=
  match
    (if bare then
       match require_resolve moduleName with
       | Ok r => Ok (negb (String.eqb r resolvedName))
       | Err e => Err e
       end
     else Ok false)
  with
  | Err e => Err e
  | Ok other =>
      Ok (other || isBlacklisted blacklist resolvedName
                || isWhitelisted whitelist resolvedName)
  end.

Definition getEnsurer (blacklist whitelist : gset string) (bare : bool)
    (moduleName resolvedName : string) : result unit :=
  match isForbidden blacklist whitelist bare moduleName resolvedName with
  | Err e => Err e
  | Ok true => Err (ForbiddenAction moduleName resolvedName)
  | Ok false => Ok ()
  end.

(** The decision and the ensurer of a handler's closure. *)
Definition forbidden (p : policy) : string → result bool :=
  isForbidden (blacklist p) (whitelist p) (bare p) (moduleName p).

Definition ensure (p : policy) : string → result unit :=
  getEnsurer (blacklist p) (whitelist p) (bare p) (moduleName p).

(** ** Operations on a plain cache object *)

Definition plain_get (l : loc) (k : string) : M value :=
  λ s, (Ok (default VUndefined ((heap s !!! l) !! k)), s).

(** The assignment [target[resolvedName] = mod] in code that is not strict,
    as line 43 is: where the object does not take the key, nothing is stored
    and nothing is thrown. *)
Definition plain_set (l : loc) (k : string) (v : value) : M bool :=
  λ s, if decide (accepts s l k)
       then (Ok true, update_object l (λ o, <[k := v]> o) s)
       else (Ok true, s).

(** The same assignment in strict code, as the host loader's is: where the
    object does not take the key, a [TypeError] is thrown. *)
Definition plain_set_strict (l : loc) (k : string) (v : value) : M bool :=
  λ s, if decide (accepts s l k)
       then (Ok true, update_object l (λ o, <[k := v]> o) s)
       else (Err (CannotAddProperty k), s).

(** [Object.defineProperty] with an ordinary data descriptor holding [v],
    and [Object.getOwnPropertyDescriptor], on a plain object. *)
Definition plain_defineProperty (l : loc) (k : string) (v : value) : M unit :=
  λ s, if decide (accepts s l k)
       then (Ok (), update_object l (λ o, <[k := v]> o) s)
       else (Err (CannotDefineProperty k), s).

Definition plain_getOwnPropertyDescriptor (l : loc) (k : string) :
    M (option value) :=
  λ s, (Ok ((heap s !!! l) !! k), s).

(** The own keys of a plain object, as [Reflect.ownKeys] and [Object.keys]
    list them. *)
Definition plain_ownKeys (l : loc) : M (gset string) :=
  λ s, (Ok (dom (heap s !!! l)), s).

Definition plain_has (l : loc) (k : string) : M bool :=
  λ s, (Ok (bool_decide (is_Some ((heap s !!! l) !! k))), s).

Definition plain_delete (l : loc) (k : string) : M bool :=
  λ s, (Ok true, update_object l (λ o, delete k o) s).

(** ** The handler of the proxy (lines 35-61)

    Each trap is given the operation of its target, so that a proxy over a
    proxy runs the traps of both. *)

Definition get (p : policy) (target_get : string → M value)
    (resolvedName : string) : M value :=
  lift (ensure p resolvedName) ;;;
  target_get resolvedName.

Definition set (p : policy) (target_set : string → value → M bool)
    (resolvedName : string) (mod' : value) : M bool :=
  lift (ensure p resolvedName) ;;;
  target_set resolvedName mod' ;;;
  ret true.

Definition has (p : policy) (target_has : string → M bool)
    (resolvedName : string) : M bool :=
  lift (ensure p resolvedName) ;;;
  target_has resolvedName.

Definition deleteProperty (p : policy) (target_delete : string → M bool)
    (resolvedName : string) : M bool :=
  lift (ensure p resolvedName) ;;;
  target_delete resolvedName ;;;
  ret true.

Definition preventExtensions (p : policy) : M unit :=
  throw (LockAttempt (moduleName p)).

(** ** Operations on a cache reference *)

Fixpoint ref_get (c : cache_ref) : string → M value :=
  match c with
  | Plain l => plain_get l
  | Proxy _ target p => get p (ref_get target)
  end.

Fixpoint ref_set (c : cache_ref) : string → value → M bool :=
  match c with
  | Plain l => plain_set l
  | Proxy _ target p => set p (ref_set target)
  end.

Fixpoint ref_has (c : cache_ref) : string → M bool :=
  match c with
  | Plain l => plain_has l
  | Proxy _ target p => has p (ref_has target)
  end.

Fixpoint ref_delete (c : cache_ref) : string → M bool :=
  match c with
  | Plain l => plain_delete l
  | Proxy _ target p => deleteProperty p (ref_delete target)
  end.

(** An assignment by strict code to a key of the reference: a proxy runs its
    [set] trap, whose answer [true] is the success of the assignment. *)
Definition ref_set_strict (c : cache_ref) : string → value → M bool :=
  match c with
  | Plain l => plain_set_strict l
  | Proxy _ _ _ => ref_set c
  end.

(** The handler has no [defineProperty], no [getOwnPropertyDescriptor] and
    no [ownKeys] trap: a proxy hands the three to its target, down to the
    plain object. *)
Definition ref_defineProperty (c : cache_ref) : string → value → M unit :=
  plain_defineProperty (underlying c).

Definition ref_getOwnPropertyDescriptor (c : cache_ref) :
    string → M (option value) :=
  plain_getOwnPropertyDescriptor (underlying c).

Definition ref_ownKeys (c : cache_ref) : M (gset string) :=
  plain_ownKeys (underlying c).

(** [Object.preventExtensions] makes a plain object non-extensible. *)
Definition ref_preventExtensions (c : cache_ref) : M unit :=
  match c with
  | Plain l => λ s, (Ok (), lock_object l s)
  | Proxy _ _ p => preventExtensions p
  end.

(** ** The exported function (lines 20-67) *)

(** The second argument, destructured with defaults; [None] is an omitted
    (undefined) field or argument. *)
Record options := Options {
  opt_blacklist : option (list string);
  opt_whitelist : option (list string);
  opt_bare : option bool
}.

Definition no_options : options := Options None None None.

(** [names.map(require.resolve)]: left to right, the first failure throws. *)
Fixpoint resolve_all (names : list string) : result (list string) :=
  match names with
  | [] => Ok []
  | name :: rest =>
      match require_resolve name with
      | Err e => Err e
      | Ok resolvedName =>
          match resolve_all rest with
          | Err e => Err e
          | Ok resolved => Ok (resolvedName :: resolved)
          end
      end
  end.

Definition read_Module_cache : M cache_ref := λ s, (Ok (Module_cache s), s).

Definition write_Module_cache (c : cache_ref) : M unit :=
  λ s, (Ok (), set_Module_cache c s).

(** [new Proxy(target, handler)] is a fresh object. *)
Definition new_Proxy (target : cache_ref) (p : policy) : M cache_ref :=
  λ s, (Ok (Proxy (next_proxy s) target p),
        {| Module_cache := Module_cache s;
           heap := heap s;
           next_proxy := S (next_proxy s);
           non_extensible := non_extensible s |}).

Definition nonempty {A} (l : list A) : bool := negb (Nat.eqb (length l) 0).

(** [require] is the host loader as seen from [snykwire.js]. *)
Definition snykwire (require : string → M value)
    (moduleName : string) (opts : option options) : M value :=
  let o := default no_options opts in
  let blacklist := default [] (opt_blacklist o) in
  let whitelist := default [] (opt_whitelist o) in
  let bare := default false (opt_bare o) in
  if nonempty blacklist && nonempty whitelist then
    throw BothListsError
  else if bare && (nonempty blacklist || nonempty whitelist) then
    throw BareWithListError
  else
    let* blacklist := lift (resolve_all blacklist) in
    let* whitelist := lift (resolve_all whitelist) in
    let p := Policy (list_to_set blacklist) (list_to_set whitelist)
                    bare moduleName in
    let* cache := read_Module_cache in
    let* guarded := new_Proxy cache p in
    write_Module_cache guarded ;;;
    try_finally (require moduleName) (write_Module_cache cache).

(** ** Loaded code

    What the host loader and the code it runs may do with the cache while a
    load is in progress: the five operations on the installed
    [Module._cache] that the proxy traps, the three it forwards untrapped,
    nested guarded loads, catching and throwing.  Writes are the
    assignments of strict code.  The [body] of a nested load is what the
    host loader does for that module. *)

Inductive prog :=
| Return (v : value)
| Throw (e : error)
| CacheGet (k : string) (cont : value → prog)
| CacheSet (k : string) (v : value) (cont : prog)
| CacheHas (k : string) (cont : bool → prog)
| CacheDelete (k : string) (cont : prog)
| CachePreventExtensions (cont : prog)
| TryCatch (body : prog) (cont : result value → prog)
| Snykwire (moduleName : string) (opts : option options)
    (body : prog) (cont : value → prog)
| CacheDefineProperty (k : string) (v : value) (cont : prog)
| CacheGetOwnPropertyDescriptor (k : string) (cont : option value → prog)
| CacheOwnKeys (cont : gset string → prog).

Definition on_Module_cache {A} (op : cache_ref → M A) : M A :=
  λ s, op (Module_cache s) s.

Definition catch {A} (m : M A) : M (result A) :=
  λ s, match m s with (r, s') => (Ok r, s') end.

Fixpoint run (p : prog) : M value :=
  match p with
  | Return v => ret v
  | Throw e => throw e
  | CacheGet k cont =>
      let* v := on_Module_cache (λ c, ref_get c k) in run (cont v)
  | CacheSet k v cont =>
      on_Module_cache (λ c, ref_set_strict c k v) ;;; run cont
  | CacheHas k cont =>
      let* b := on_Module_cache (λ c, ref_has c k) in run (cont b)
  | CacheDelete k cont =>
      on_Module_cache (λ c, ref_delete c k) ;;; run cont
  | CachePreventExtensions cont =>
      on_Module_cache ref_preventExtensions ;;; run cont
  | TryCatch body cont =>
      let* r := catch (run body) in run (cont r)
  | Snykwire moduleName opts body cont =>
      let* v := snykwire (λ _, run body) moduleName opts in run (cont v)
  | CacheDefineProperty k v cont =>
      on_Module_cache (λ c, ref_defineProperty c k v) ;;; run cont
  | CacheGetOwnPropertyDescriptor k cont =>
      let* d := on_Module_cache (λ c, ref_getOwnPropertyDescriptor c k) in
      run (cont d)
  | CacheOwnKeys cont =>
      let* ks := on_Module_cache ref_ownKeys in run (cont ks)
  end.

(** A guarded load of a module whose loading behaves as [body]. *)
Definition guardedRequire (moduleName : string) (opts : option options)
    (body : prog) : M value :=
  snykwire (λ _, run body) moduleName opts.

(** An ordinary load of the same module: no view is installed. *)
Definition ordinaryRequire (body : prog) : M value := run body.

(** ** Notions used by the statements *)

(** The decision of every handler on the way down to the plain object, in
    the order in which the traps run. *)
Fixpoint ensure_all (ps : list policy) (resolvedName : string) : result unit :=
  match ps with
  | [] => Ok ()
  | p :: rest =>
      match ensure p resolvedName with
      | Err e => Err e
      | Ok _ => ensure_all rest resolvedName
      end
  end.

(** The decision chain of the specification (section 4.1), over the
    normalised sets. *)
Definition spec_isForbidden (disallow allow : gset string) (solo : bool)
    (requestedName resolvedName : string) : result bool :=
  if solo then
    match require_resolve requestedName with
    | Ok r => Ok (negb (bool_decide (resolvedName = r)))
    | Err e => Err e
    end
  else if bool_decide (disallow ≠ ∅) then
    Ok (bool_decide (resolvedName ∈ disallow))
  else if bool_decide (allow ≠ ∅) then
    Ok (negb (bool_decide (resolvedName ∈ allow)))
  else Ok false.

End Snykwire.


(** At most one of solo, a non-empty disallow set and a non-empty allow set. *)
Definition mutually_exclusive (disallow allow : gset string) (solo : bool) : Prop :=
  (solo = true → disallow = ∅ ∧ allow = ∅) ∧ (disallow = ∅ ∨ allow = ∅).

Definition blacklist_of (opts : option options) : list string :=
  default [] (opt_blacklist (default no_options opts)).
Definition whitelist_of (opts : option options) : list string :=
  default [] (opt_whitelist (default no_options opts)).
Definition bare_of (opts : option options) : bool :=
  default false (opt_bare (default no_options opts)).

(** The handler an invocation builds from its options (lines 29-31), when
    every listed name resolves. *)
Definition policy_of (resolve : string → option string)
    (moduleName : string) (opts : option options) : result policy :=
  match resolve_all resolve (blacklist_of opts) with
  | Err e => Err e
  | Ok blacklist =>
      match resolve_all resolve (whitelist_of opts) with
      | Err e => Err e
      | Ok whitelist =>
          Ok (Policy (list_to_set blacklist) (list_to_set whitelist)
                     (bare_of opts) moduleName)
      end
  end.

(** The error of lines 21-27 for a rejected combination. *)
Definition rejection (opts : option options) : error :=
  if nonempty (blacklist_of opts) && nonempty (whitelist_of opts)
  then BothListsError else BareWithListError.

(** The combinations of options rejected by lines 21-27. *)
Definition invalid_combination (opts : option options) : Prop :=
  (blacklist_of opts ≠ [] ∧ whitelist_of opts ≠ []) ∨
  (bare_of opts = true ∧ (blacklist_of opts ≠ [] ∨ whitelist_of opts ≠ [])).

#[global] Instance invalid_combination_dec opts :
  Decision (invalid_combination opts).
Proof. unfold invalid_combination. apply _. Defined.

(** The state in which the host loader starts once the view is installed. *)
Definition installed (p : policy) (s : state) : state :=
  State (Proxy (next_proxy s) (Module_cache s) p) (heap s) (S (next_proxy s))
        (non_extensible s).


(** The handler installed for an unrestricted load of [moduleName]. *)
Definition no_policy (moduleName : string) : policy := Policy ∅ ∅ false moduleName.


(** The loaded code, in nested loads too, uses none of the operations the
    proxy does not trap. *)
Fixpoint trapped_only (p : prog) : Prop :=
  match p with
  | Return _ | Throw _ => True
  | CacheGet _ cont => ∀ v, trapped_only (cont v)
  | CacheSet _ _ cont => trapped_only cont
  | CacheHas _ cont => ∀ b, trapped_only (cont b)
  | CacheDelete _ cont => trapped_only cont
  | CachePreventExtensions cont => trapped_only cont
  | TryCatch body cont => trapped_only body ∧ ∀ r, trapped_only (cont r)
  | Snykwire _ _ body cont => trapped_only body ∧ ∀ v, trapped_only (cont v)
  | CacheDefineProperty _ _ _ => False
  | CacheGetOwnPropertyDescriptor _ _ => False
  | CacheOwnKeys _ => False
  end.





(** Two states that hold the same reference and differ at most in the
    entries under the keys in [hidden]. *)
Definition alike (hidden : string → Prop) (s s' : state) : Prop :=
  Module_cache s = Module_cache s'
  ∧ next_proxy s = next_proxy s'
  ∧ non_extensible s = non_extensible s'
  ∧ ∀ l k, ¬ hidden k → (heap s !!! l) !! k = (heap s' !!! l) !! k.


(** ** A concrete host, for the instances below *)

Module Example.

(** Relative names resolve to files under [/app], builtin names to
    themselves, and ["missing"] does not resolve. *)
Definition resolve (request : string) : option string :=
  match request with
  | String "."%char (String "/"%char name) => Some ("/app/" ++ name ++ ".js")
  | _ => if String.eqb request "missing" then None else Some request
  end.

(** A process whose cache holds the record of the main module. *)
Definition s0 : state :=
  State (Plain 0) {[ 0 := {[ "/app/main.js" := VModule (VStr "main") ]} ]} 0 ∅.

(** The same process after the cache has been made non-extensible. *)
Definition locked : state := lock_object 0 s0.

(** The host loader on a file: a cached record answers; otherwise the record
    is cached, the code of the module runs, and a throw removes the record
    again before it propagates. *)
Definition load (filename : string) (exports : value) (code : prog)
    (cont : value → prog) : prog :=
  CacheGet filename (λ cached,
    match cached with
    | VModule cachedExports => cont cachedExports
    | _ =>
        CacheSet filename (VModule exports)
          (TryCatch code (λ r,
             match r with
             | Ok _ => cont exports
             | Err e => CacheDelete filename (Throw e)
             end))
    end).

(** The host loader on a builtin: the cache is consulted first, the builtin
    itself is not cached. *)
Definition builtin (name : string) (cont : value → prog) : prog :=
  CacheGet name (λ cached,
    match cached with
    | VModule cachedExports => cont cachedExports
    | _ => cont (VStr name)
    end).

(** [require('./m')], where the code of [m] requires [fs]. *)
Definition requires_fs : prog :=
  load "/app/m.js" (VStr "m") (builtin "fs" (λ _, Return VUndefined)) Return.

(** [require('./m')], where the code of [m] requires [./a], which requires
    nothing, and then [fs]. *)
Definition requires_a_then_fs : prog :=
  load "/app/m.js" (VStr "m")
    (load "/app/a.js" (VStr "a") (Return VUndefined) (λ _,
     builtin "fs" (λ _, Return VUndefined)))
    Return.


(** [require('./okay')], where the code of the module requires [fs]. *)
Definition okay : prog :=
  load "/app/okay.js" (VStr "ok") (builtin "fs" (λ _, Return VUndefined)) Return.

(** [require('./outer')], whose code loads [./inner] under a bare guarded
    load of its own and then asks the cache whether [./inner] is there. *)
Definition nested : prog :=
  load "/app/outer.js" (VStr "outer")
    (Snykwire "./inner" (Some (Options None None (Some true)))
       (load "/app/inner.js" (VStr "in") (Return VUndefined) Return) (λ _,
     CacheHas "/app/inner.js" (λ b, Return (VBool b))))
    (λ _, CacheHas "/app/inner.js" (λ b, Return (VBool b))).

End Example.

(** ** Properties *)

Section Properties.

Variable resolve : string → option string.

(** *** The policy *)

Lemma size_zero_empty (X : gset string) : Nat.eqb (size X) 0 = bool_decide (X = ∅).
Proof.
  destruct (Nat.eqb_spec (size X) 0) as [H|H]; symmetry.
  - apply bool_decide_eq_true. by apply size_empty_iff, leibniz_equiv in H.
  - apply bool_decide_eq_false. intros ->. by rewrite size_empty in H.
Qed.

Lemma isBlacklisted_empty k : isBlacklisted ∅ k = false.
Proof. reflexivity. Qed.

Lemma isWhitelisted_empty k : isWhitelisted ∅ k = false.
Proof. reflexivity. Qed.

Lemma isBlacklisted_elem (bl : gset string) k :
  isBlacklisted bl k = bool_decide (k ∈ bl).
Proof.
  unfold isBlacklisted. rewrite size_zero_empty.
  case_bool_decide as H; simpl; [|done].
  subst. symmetry. apply bool_decide_eq_false. set_solver.
Qed.

Lemma isWhitelisted_nonempty (wl : gset string) k :
  wl ≠ ∅ → isWhitelisted wl k = negb (bool_decide (k ∈ wl)).
Proof.
  intros H. unfold isWhitelisted. rewrite size_zero_empty.
  by rewrite bool_decide_eq_false_2.
Qed.

(** C2. For sets that satisfy the mutual-exclusivity invariant, the
    disjunction the code evaluates is the decision chain of the
    specification: solo first, then the disallow set, then the allow set,
    else nothing is forbidden.  Both sides throw alike when solo is set and
    the requested name does not resolve. *)
Theorem isForbidden_spec (bl wl : gset string) (b : bool) (m k : string) :
  mutually_exclusive bl wl b →
  isForbidden resolve bl wl b m k = spec_isForbidden resolve bl wl b m k.
Proof.
  intros [Hsolo Hlists]. unfold isForbidden, spec_isForbidden.
  destruct b.
  - destruct (Hsolo eq_refl) as [-> ->].
    destruct (require_resolve resolve m) as [r|e]; [|done].
    rewrite isBlacklisted_empty, isWhitelisted_empty, !orb_false_r.
    f_equal. f_equal.
    destruct (String.eqb_spec r k) as [->|Hne].
    + by rewrite bool_decide_eq_true_2.
    + by rewrite bool_decide_eq_false_2 by congruence.
  - simpl. rewrite isBlacklisted_elem.
    destruct (decide (bl = ∅)) as [->|Hbl].
    + rewrite (bool_decide_eq_false_2 (∅ ≠ ∅)) by congruence.
      rewrite (bool_decide_eq_false_2 (k ∈ ∅)) by set_solver. simpl.
      destruct (decide (wl = ∅)) as [->|Hwl].
      * by rewrite (bool_decide_eq_false_2 (∅ ≠ ∅)) by congruence.
      * by rewrite (bool_decide_eq_true_2 (wl ≠ ∅)), isWhitelisted_nonempty.
    + rewrite (bool_decide_eq_true_2 (bl ≠ ∅)) by done.
      destruct Hlists as [->| ->]; [done|].
      by rewrite isWhitelisted_empty, orb_false_r.
Qed.

(** Without the invariant the two differ: with both sets non-empty the
    code also forbids what is missing from the allow set. *)
Example isForbidden_without_exclusivity :
  isForbidden resolve {["fs"]} {["net"]} false "./m" "path" = Ok true
  ∧ spec_isForbidden resolve {["fs"]} {["net"]} false "./m" "path" = Ok false.
Proof. split; vm_compute; reflexivity. Qed.

(** *** The ensurer *)

Lemma ensure_forbidden p k :
  ensure resolve p k =
    match forbidden resolve p k with
    | Ok true => Err (ForbiddenAction (moduleName p) k)
    | Ok false => Ok ()
    | Err e => Err e
    end.
Proof. unfold ensure, getEnsurer, forbidden. by destruct isForbidden as [[]|]. Qed.


(** *** The traps *)

Ltac trap_cases p k :=
  simpl; unfold get, set, has, deleteProperty, bind, lift, ret;
  rewrite ?(ensure_forbidden p k);
  destruct (forbidden resolve p k) as [[]|]; try reflexivity.

Lemma ref_set_true c k v s :
  (∃ s', ref_set resolve c k v s = (Ok true, s')) ∨
  (∃ e, ref_set resolve c k v s = (Err e, s)).
Proof.
  revert s. induction c as [l|id target IH p]; intros s; simpl.
  - left. unfold plain_set. case_decide; eauto.
  - unfold set, bind, lift, ret.
    destruct (ensure resolve p k); [|right; eauto].
    destruct (IH s) as [[s' ->]|[e ->]]; eauto.
Qed.

Lemma ref_delete_true c k s :
  (∃ s', ref_delete resolve c k s = (Ok true, s')) ∨
  (∃ e, ref_delete resolve c k s = (Err e, s)).
Proof.
  revert s. induction c as [l|id target IH p]; intros s; simpl.
  - left. eauto.
  - unfold deleteProperty, bind, lift, ret.
    destruct (ensure resolve p k); [|right; eauto].
    destruct (IH s) as [[s' ->]|[e ->]]; eauto.
Qed.

Lemma get_trap id target p k s :
  ref_get resolve (Proxy id target p) k s =
    match forbidden resolve p k with
    | Ok true => (Err (ForbiddenAction (moduleName p) k), s)
    | Ok false => ref_get resolve target k s
    | Err e => (Err e, s)
    end.
Proof. trap_cases p k. Qed.

Lemma has_trap id target p k s :
  ref_has resolve (Proxy id target p) k s =
    match forbidden resolve p k with
    | Ok true => (Err (ForbiddenAction (moduleName p) k), s)
    | Ok false => ref_has resolve target k s
    | Err e => (Err e, s)
    end.
Proof. trap_cases p k. Qed.

Lemma set_trap id target p k v s :
  ref_set resolve (Proxy id target p) k v s =
    match forbidden resolve p k with
    | Ok true => (Err (ForbiddenAction (moduleName p) k), s)
    | Ok false => ref_set resolve target k v s
    | Err e => (Err e, s)
    end.
Proof.
  trap_cases p k.
  by destruct (ref_set_true target k v s) as [[s' ->]|[e ->]].
Qed.

Lemma deleteProperty_trap id target p k s :
  ref_delete resolve (Proxy id target p) k s =
    match forbidden resolve p k with
    | Ok true => (Err (ForbiddenAction (moduleName p) k), s)
    | Ok false => ref_delete resolve target k s
    | Err e => (Err e, s)
    end.
Proof.
  trap_cases p k.
  by destruct (ref_delete_true target k s) as [[s' ->]|[e ->]].
Qed.


(** *** Entries of the heap *)

Lemma update_object_lookup l f s l' :
  heap (update_object l f s) !!! l' =
    if decide (l = l') then f (heap s !!! l) else heap s !!! l'.
Proof.
  unfold update_object; simpl. case_decide as H.
  - subst. by rewrite lookup_total_insert_eq.
  - by rewrite lookup_total_insert_ne.
Qed.

Lemma update_object_insert_ne l k v s l' k' :
  k ≠ k' →
  (heap (update_object l (λ o, <[k := v]> o) s) !!! l') !! k' =
  (heap s !!! l') !! k'.
Proof.
  intros Hk. rewrite update_object_lookup. case_decide; [|done].
  subst. by rewrite lookup_insert_ne.
Qed.

Lemma update_object_delete_ne l k s l' k' :
  k ≠ k' →
  (heap (update_object l (λ o, delete k o) s) !!! l') !! k' =
  (heap s !!! l') !! k'.
Proof.
  intros Hk. rewrite update_object_lookup. case_decide; [|done].
  subst. by rewrite lookup_delete_ne.
Qed.






(** *** Claims on the traps *)


(** C5. An existence check of a forbidden key throws the very error a read
    of that key throws, and does not answer [false]; otherwise it is the
    check of the target, which on a plain original tells whether the key is
    present. *)
Theorem guarded_has id target l p k s :
  let guarded := Proxy id target p in
  let violation := ForbiddenAction (moduleName p) k in
  ref_has resolve guarded k s =
    match forbidden resolve p k with
    | Ok true => (Err violation, s)
    | Ok false => ref_has resolve target k s
    | Err e => (Err e, s)
    end
  ∧ (forbidden resolve p k = Ok true →
       ref_has resolve guarded k s = (Err violation, s)
       ∧ ref_get resolve guarded k s = (Err violation, s)
       ∧ kind_of violation = AccessViolationError
       ∧ (ref_has resolve guarded k s).1 ≠ Ok false)
  ∧ (forbidden resolve p k = Ok false →
       ref_has resolve (Proxy id (Plain l) p) k s =
         (Ok (bool_decide (is_Some ((heap s !!! l) !! k))), s)).
Proof.
  intros guarded violation. subst guarded violation.
  rewrite !has_trap, !get_trap.
  split; [reflexivity|]. split; intros Hf; rewrite Hf; [|reflexivity].
  repeat split. simpl. congruence.
Qed.

(** *** The exported function, case by case *)

Lemma nonempty_true {A} (l : list A) : nonempty l = true ↔ l ≠ [].
Proof. by destruct l. Qed.

Lemma snykwire_invalid (resolver : string → option string) require m opts s :
  invalid_combination opts →
  snykwire resolver require m opts s = (Err (rejection opts), s).
Proof.
  unfold invalid_combination, rejection, snykwire.
  fold (blacklist_of opts) (whitelist_of opts) (bare_of opts).
  rewrite <- !nonempty_true.
  intros [[-> ->]|[-> H]]; simpl; [done|].
  destruct (nonempty _ && nonempty _); [done|].
  by destruct H as [-> | ->]; rewrite ?orb_true_r.
Qed.

Lemma rejection_kind opts : kind_of (rejection opts) = ConfigurationError.
Proof. unfold rejection. by destruct (_ && _). Qed.

Lemma snykwire_valid require m opts s :
  ¬ invalid_combination opts →
  snykwire resolve require m opts s =
    match policy_of resolve m opts with
    | Err e => (Err e, s)
    | Ok p =>
        let r := require m (installed p s) in
        (r.1, set_Module_cache (Module_cache s) r.2)
    end.
Proof.
  unfold invalid_combination, policy_of, snykwire.
  fold (blacklist_of opts) (whitelist_of opts) (bare_of opts).
  rewrite <- !nonempty_true. intros H.
  destruct (nonempty _ && nonempty _) eqn:E1.
  { apply andb_true_iff in E1. tauto. }
  destruct (bare_of opts && _) eqn:E2.
  { apply andb_true_iff in E2 as [? ?%orb_true_iff]. tauto. }
  unfold bind, lift, try_finally, read_Module_cache, new_Proxy,
    write_Module_cache; simpl.
  destruct (resolve_all _ _); [|done].
  destruct (resolve_all _ _); [|done].
  unfold installed. by destruct (require _ _) as [[] ?].
Qed.

(** C6. The lock trap throws whatever the policy is, the empty one
    included: loaded code that tries to lock the installed view fails with
    the lock error, under every accepted configuration as well as under
    none. *)
Theorem lock_attempt_always_fails id target p s m cont :
  ref_preventExtensions (Proxy id target p) s =
    (Err (LockAttempt (moduleName p)), s)
  ∧ kind_of (LockAttempt (moduleName p)) = AccessViolationError
  ∧ message (LockAttempt (moduleName p)) =
      Some ("Module '" ++ moduleName p ++ "' tried to lock your module cache")
  ∧ run resolve (CachePreventExtensions cont) (installed p s) =
      (Err (LockAttempt (moduleName p)), installed p s)
  ∧ guardedRequire resolve m None (CachePreventExtensions cont) s =
      (Err (LockAttempt m),
       set_Module_cache (Module_cache s) (installed (no_policy m) s))
  ∧ (∀ opts, ¬ invalid_combination opts →
       policy_of resolve m opts = Ok p →
       guardedRequire resolve m opts (CachePreventExtensions cont) s =
         (Err (LockAttempt m),
          set_Module_cache (Module_cache s) (installed p s))).
Proof.
  repeat split. intros opts Hv Hp. unfold guardedRequire.
  rewrite snykwire_valid, Hp by done. simpl.
  unfold policy_of in Hp.
  destruct (resolve_all _ _); [|done]. destruct (resolve_all _ _); [|done].
  by simplify_eq.
Qed.

(** *** The cache reference *)

Lemma snykwire_Module_cache require m opts s :
  Module_cache (snykwire resolve require m opts s).2 = Module_cache s.
Proof.
  destruct (decide (invalid_combination opts)) as [H|H].
  - by rewrite snykwire_invalid.
  - rewrite snykwire_valid by done. by destruct (policy_of _ _ _).
Qed.


Lemma ref_get_state c k s : (ref_get resolve c k s).2 = s.
Proof.
  induction c as [l|id target IH p]; [done|].
  rewrite get_trap. by destruct (forbidden resolve p k) as [[]|].
Qed.

Lemma ref_has_state c k s : (ref_has resolve c k s).2 = s.
Proof.
  induction c as [l|id target IH p]; [done|].
  rewrite has_trap. by destruct (forbidden resolve p k) as [[]|].
Qed.

Lemma ref_set_Module_cache c k v s :
  Module_cache (ref_set resolve c k v s).2 = Module_cache s.
Proof.
  induction c as [l|id target IH p].
  - simpl. unfold plain_set. by case_decide.
  - rewrite set_trap. by destruct (forbidden resolve p k) as [[]|].
Qed.

Lemma ref_set_strict_Module_cache c k v s :
  Module_cache (ref_set_strict resolve c k v s).2 = Module_cache s.
Proof.
  destruct c as [l|id target p].
  - simpl. unfold plain_set_strict. by case_decide.
  - apply ref_set_Module_cache.
Qed.

Lemma ref_defineProperty_Module_cache c k v s :
  Module_cache (ref_defineProperty c k v s).2 = Module_cache s.
Proof. unfold ref_defineProperty, plain_defineProperty. by case_decide. Qed.

Lemma ref_delete_Module_cache c k s :
  Module_cache (ref_delete resolve c k s).2 = Module_cache s.
Proof.
  induction c as [l|id target IH p]; [done|].
  rewrite deleteProperty_trap. by destruct (forbidden resolve p k) as [[]|].
Qed.

Lemma ref_preventExtensions_Module_cache c s :
  Module_cache (ref_preventExtensions c s).2 = Module_cache s.
Proof. by destruct c. Qed.

(** Loaded code, nested guarded loads included, leaves the installed
    reference as it found it. *)
Lemma run_Module_cache p :
  ∀ s, Module_cache (run resolve p s).2 = Module_cache s.
Proof.
  induction p as [v|e|k cont IH|k v cont IH|k cont IH|k cont IH|cont IH
                 |body IHbody cont IH|m opts body IHbody cont IH
                 |k v cont IH|k cont IH|cont IH];
    intros s; simpl; try done; unfold bind, on_Module_cache, catch.
  - pose proof (ref_get_state (Module_cache s) k s) as Hs.
    destruct (ref_get _ _ _ _) as [[v|e] s']; simpl in Hs; subst s'; [|done].
    apply IH.
  - pose proof (ref_set_strict_Module_cache (Module_cache s) k v s) as Hs.
    destruct (ref_set_strict _ _ _ _ _) as [[b|e] s']; simpl in Hs; [|done].
    by rewrite IH.
  - pose proof (ref_has_state (Module_cache s) k s) as Hs.
    destruct (ref_has _ _ _ _) as [[b|e] s']; simpl in Hs; subst s'; [|done].
    apply IH.
  - pose proof (ref_delete_Module_cache (Module_cache s) k s) as Hs.
    destruct (ref_delete _ _ _ _) as [[b|e] s']; simpl in Hs; [|done].
    by rewrite IH.
  - pose proof (ref_preventExtensions_Module_cache (Module_cache s) s) as Hs.
    destruct (ref_preventExtensions _ _) as [[b|e] s']; simpl in Hs; [|done].
    by rewrite IH.
  - pose proof (IHbody s) as Hs.
    destruct (run resolve body s) as [r s']; simpl in Hs.
    by rewrite IH.
  - pose proof (snykwire_Module_cache (λ _, run resolve body) m opts s) as Hs.
    destruct (snykwire _ _ _ _ _) as [[v|e] s']; simpl in Hs; [|done].
    by rewrite IH.
  - pose proof (ref_defineProperty_Module_cache (Module_cache s) k v s) as Hs.
    destruct (ref_defineProperty _ _ _ _) as [[b|e] s']; simpl in Hs; [|done].
    by rewrite IH.
  - apply IH.
  - apply IH.
Qed.

(** C1. Whatever the host loader does and however the invocation ends, the
    exported function leaves [Module._cache] holding the reference it held
    on entry; the loader itself runs under a fresh proxy whose target is that
    reference; and loaded code, nested invocations included, hands the
    reference back as it found it, so that nested invocations unwind last
    in, first out. *)
Theorem cache_reference_restored :
  (∀ require m opts s,
     Module_cache (snykwire resolve require m opts s).2 = Module_cache s)
  ∧ (∀ m opts body s,
     Module_cache (guardedRequire resolve m opts body s).2 = Module_cache s)
  ∧ (∀ p s, Module_cache (installed p s) =
              Proxy (next_proxy s) (Module_cache s) p)
  ∧ (∀ body s, Module_cache (run resolve body s).2 = Module_cache s)
  ∧ (∀ m opts body cont s,
       ∃ r s', snykwire resolve (λ _, run resolve body) m opts s = (r, s')
         ∧ Module_cache s' = Module_cache s
         ∧ run resolve (Snykwire m opts body cont) s =
             match r with
             | Ok v => run resolve (cont v) s'
             | Err e => (Err e, s')
             end).
Proof.
  repeat split.
  - intros. apply snykwire_Module_cache.
  - intros. apply snykwire_Module_cache.
  - intros. apply run_Module_cache.
  - intros m opts body cont s.
    pose proof (snykwire_Module_cache (λ _, run resolve body) m opts s) as Hs.
    simpl. unfold bind.
    destruct (snykwire _ _ _ _ _) as [r s']. exists r, s'.
    by destruct r.
Qed.

(** C4. An invalid combination of options is rejected with a configuration
    error before anything else happens: the loader is not called and the
    state, cache reference and contents alike, is the one on entry. *)
Theorem invalid_options_rejected require m opts s :
  invalid_combination opts →
  ∃ e, snykwire resolve require m opts s = (Err e, s)
       ∧ kind_of e = ConfigurationError
       ∧ (e = BothListsError ∨ e = BareWithListError).
Proof.
  intros H. exists (rejection opts).
  rewrite snykwire_invalid, rejection_kind by done.
  repeat split. unfold rejection. destruct (_ && _); auto.
Qed.


(** C9. When the combination of options is invalid, an unresolvable entry
    does not matter: the configuration error is raised, the state is
    untouched and the outcome is the same under every resolver, because no
    entry is resolved before the combination has been validated.  The same
    entry alone, in a valid combination, raises the resolution error. *)
Theorem validation_precedes_resolution require m opts s name :
  invalid_combination opts →
  name ∈ (blacklist_of opts ++ whitelist_of opts)%list →
  resolve name = None →
  snykwire resolve require m opts s = (Err (rejection opts), s)
  ∧ kind_of (rejection opts) = ConfigurationError
  ∧ (∀ resolve', snykwire resolve' require m opts s =
                 snykwire resolve require m opts s)
  ∧ snykwire resolve require m (Some (Options (Some [name]) None None)) s =
      (Err (CannotFindModule name), s)
  ∧ snykwire resolve require m (Some (Options None (Some [name]) None)) s =
      (Err (CannotFindModule name), s).
Proof.
  intros Hinv _ Hname. rewrite snykwire_invalid, rejection_kind by done.
  repeat split.
  - intros resolve'. by apply snykwire_invalid.
  - unfold snykwire, bind, lift. simpl. unfold require_resolve.
    by rewrite Hname.
  - unfold snykwire, bind, lift. simpl. unfold require_resolve.
    by rewrite Hname.
Qed.

(** *** Chains of proxies *)

Lemma ensure_all_cons p ps k :
  ensure_all resolve (p :: ps) k =
    match forbidden resolve p k with
    | Ok true => Err (ForbiddenAction (moduleName p) k)
    | Ok false => ensure_all resolve ps k
    | Err e => Err e
    end.
Proof. simpl. rewrite ensure_forbidden. by destruct forbidden as [[]|]. Qed.

Ltac chain_step IH p k :=
  rewrite ensure_all_cons;
  destruct (forbidden resolve p k) as [[]|]; [done|apply IH|done].

Lemma ref_get_chain c k s :
  ref_get resolve c k s =
    match ensure_all resolve (policies c) k with
    | Err e => (Err e, s)
    | Ok _ => plain_get (underlying c) k s
    end.
Proof.
  induction c as [l|id target IH p]; [done|].
  rewrite get_trap. cbn [policies underlying]. chain_step IH p k.
Qed.

Lemma ref_has_chain c k s :
  ref_has resolve c k s =
    match ensure_all resolve (policies c) k with
    | Err e => (Err e, s)
    | Ok _ => plain_has (underlying c) k s
    end.
Proof.
  induction c as [l|id target IH p]; [done|].
  rewrite has_trap. cbn [policies underlying]. chain_step IH p k.
Qed.

Lemma ref_set_chain c k v s :
  ref_set resolve c k v s =
    match ensure_all resolve (policies c) k with
    | Err e => (Err e, s)
    | Ok _ => plain_set (underlying c) k v s
    end.
Proof.
  induction c as [l|id target IH p]; [done|].
  rewrite set_trap. cbn [policies underlying]. chain_step IH p k.
Qed.

Lemma ref_delete_chain c k s :
  ref_delete resolve c k s =
    match ensure_all resolve (policies c) k with
    | Err e => (Err e, s)
    | Ok _ => plain_delete (underlying c) k s
    end.
Proof.
  induction c as [l|id target IH p]; [done|].
  rewrite deleteProperty_trap. cbn [policies underlying]. chain_step IH p k.
Qed.

(** *** What an invocation leaves behind *)

(** C7, as the code has it. A failed invocation puts the cache reference
    back, whatever the loader did.  When the options are rejected or a
    listed name does not resolve, nothing at all has changed.  Otherwise the
    error is the one the load ended with, and the cache contents are those
    the load left at that point: nothing is rolled back. *)
Theorem failed_load_effects require m opts s e s' :
  snykwire resolve require m opts s = (Err e, s') →
  Module_cache s' = Module_cache s
  ∧ (invalid_combination opts → s' = s ∧ e = rejection opts)
  ∧ (∀ e', policy_of resolve m opts = Err e' → s' = s)
  ∧ (∀ p, ¬ invalid_combination opts →
       policy_of resolve m opts = Ok p →
       (require m (installed p s)).1 = Err e
       ∧ heap s' = heap (require m (installed p s)).2
       ∧ non_extensible s' = non_extensible (require m (installed p s)).2).
Proof.
  intros Hrun.
  pose proof (snykwire_Module_cache require m opts s) as Hc.
  rewrite Hrun in Hc. split; [done|].
  destruct (decide (invalid_combination opts)) as [H|H].
  - rewrite snykwire_invalid in Hrun by done. simplify_eq.
    repeat split; done.
  - rewrite snykwire_valid in Hrun by done.
    split; [done|]. split.
    + intros e' He'. rewrite He' in Hrun. by simplify_eq.
    + intros p _ Hp. rewrite Hp in Hrun. simpl in Hrun. by simplify_eq.
Qed.




(** Every handler an accepted invocation installs satisfies the
    mutual-exclusivity invariant. *)
Lemma policy_of_mutually_exclusive m opts p :
  ¬ invalid_combination opts →
  policy_of resolve m opts = Ok p →
  mutually_exclusive (blacklist p) (whitelist p) (bare p).
Proof.
  unfold invalid_combination, policy_of, mutually_exclusive.
  intros Hv.
  destruct (resolve_all resolve (blacklist_of opts)) as [bl|] eqn:Hbl; [|done].
  destruct (resolve_all resolve (whitelist_of opts)) as [wl|] eqn:Hwl; [|done].
  intros [= <-]. simpl.
  assert (blacklist_of opts = [] → list_to_set bl =@{gset string} ∅) as Hb.
  { intros E. rewrite E in Hbl. simpl in Hbl. by simplify_eq. }
  assert (whitelist_of opts = [] → list_to_set wl =@{gset string} ∅) as Hw.
  { intros E. rewrite E in Hwl. simpl in Hwl. by simplify_eq. }
  destruct (decide (blacklist_of opts = [])) as [Eb|Eb],
           (decide (whitelist_of opts = [])) as [Ew|Ew]; try by auto.
  - split; [|by auto]. intros Hbare. destruct Hv. by auto.
  - split; [|by auto]. intros Hbare. destruct Hv. by auto.
  - destruct Hv. by auto.
Qed.

(** ** Further properties of the code *)

(** *** The decision, without the invariant *)

Lemma isWhitelisted_true (wl : gset string) k :
  isWhitelisted wl k = true ↔ wl ≠ ∅ ∧ k ∉ wl.
Proof.
  destruct (decide (wl = ∅)) as [->|Hne].
  - rewrite isWhitelisted_empty. split; [done|]. by intros [? _].
  - rewrite isWhitelisted_nonempty, negb_true_iff, bool_decide_eq_false
      by done. tauto.
Qed.

Lemma isForbidden_Err_iff (bl wl : gset string) b m k e :
  isForbidden resolve bl wl b m k = Err e ↔
  b = true ∧ resolve m = None ∧ e = CannotFindModule m.
Proof.
  unfold isForbidden, require_resolve.
  destruct b; [|split; [done|by intros [? _]]].
  destruct (resolve m); split; try done.
  - by intros (_ & ? & _).
  - by intros [= <-].
  - by intros (_ & _ & ->).
Qed.

Lemma isForbidden_true_iff (bl wl : gset string) b m k :
  isForbidden resolve bl wl b m k = Ok true ↔
  (b = true → is_Some (resolve m))
  ∧ ((b = true ∧ resolve m ≠ Some k) ∨ k ∈ bl ∨ (wl ≠ ∅ ∧ k ∉ wl)).
Proof.
  unfold isForbidden, require_resolve.
  rewrite !isBlacklisted_elem.
  assert (∀ x : bool, Ok x = Ok true ↔ x = true) as Hok.
  { intros x. split; [by intros [= ->]|by intros ->]. }
  destruct b; simpl.
  - destruct (resolve m) as [r|] eqn:Hr.
    + rewrite Hok, !orb_true_iff, negb_true_iff, bool_decide_eq_true,
        isWhitelisted_true.
      destruct (String.eqb_spec r k) as [->|Hne]; split.
      * intros [[?|?]|?]; [done|eauto..].
      * intros [_ [[_ ?]|[?|?]]]; [done|auto..].
      * intros _. split; [eauto|]. left. split; [done|congruence].
      * auto.
    + split; [done|]. intros [H _]. by destruct (H eq_refl).
  - rewrite Hok, orb_true_iff, bool_decide_eq_true, isWhitelisted_true.
    split.
    + intros H. split; [done|]. destruct H; auto.
    + intros [_ [[? _]|[?|?]]]; [done|auto..].
Qed.

(** X1. What [isForbidden] decides for arbitrary sets and flag: it throws
    exactly when bare is set and the requested name does not resolve, and
    otherwise forbids a key exactly when bare is set and the key is not the
    resolved requested name, or the key is blacklisted, or the whitelist is
    non-empty and misses the key.  An empty whitelist forbids nothing. *)
Theorem isForbidden_decision (bl wl : gset string) (b : bool) (m k : string) :
  (∀ e, isForbidden resolve bl wl b m k = Err e ↔
        b = true ∧ resolve m = None ∧ e = CannotFindModule m)
  ∧ (isForbidden resolve bl wl b m k = Ok true ↔
       (b = true → is_Some (resolve m))
       ∧ ((b = true ∧ resolve m ≠ Some k) ∨ k ∈ bl ∨ (wl ≠ ∅ ∧ k ∉ wl)))
  ∧ isForbidden resolve bl ∅ false m k = Ok (bool_decide (k ∈ bl)).
Proof.
  split; [|split].
  - intros e. apply isForbidden_Err_iff.
  - apply isForbidden_true_iff.
  - unfold isForbidden. simpl.
    by rewrite isBlacklisted_elem, isWhitelisted_empty, orb_false_r.
Qed.

(** X2. Tightening a policy never lifts a prohibition: a key forbidden
    under a blacklist and a whitelist stays forbidden under a larger
    blacklist and a smaller whitelist, as long as a non-empty whitelist is
    not emptied -- the empty whitelist is no restriction at all. *)
Theorem isForbidden_monotone (bl bl' wl wl' : gset string) b m k :
  bl ⊆ bl' → wl' ⊆ wl → (wl ≠ ∅ → wl' ≠ ∅) →
  isForbidden resolve bl wl b m k = Ok true →
  isForbidden resolve bl' wl' b m k = Ok true.
Proof.
  intros Hbl Hwl Hne. rewrite !isForbidden_true_iff.
  intros [Hr [H|[H|[H1 H2]]]]; (split; [done|]).
  - by left.
  - right. left. by apply Hbl.
  - right. right. split; [by apply Hne|]. intros Hk. by apply H2, Hwl.
Qed.

(** Emptying the whitelist is not a tightening. *)
Example emptied_whitelist_permits :
  isForbidden resolve ∅ {["net"]} false "./m" "fs" = Ok true
  ∧ isForbidden resolve ∅ ∅ false "./m" "fs" = Ok false.
Proof. split; vm_compute; reflexivity. Qed.

(** *** Normalisation of the lists *)

Lemma resolve_all_Forall2 names resolved :
  resolve_all resolve names = Ok resolved ↔
  Forall2 (λ name r, resolve name = Some r) names resolved.
Proof.
  revert resolved. induction names as [|name names IH]; intros resolved; simpl.
  - split; [intros [= <-]; constructor|]. by intros ->%Forall2_nil_inv_l.
  - unfold require_resolve. destruct (resolve name) as [r|] eqn:Hr.
    + destruct (resolve_all resolve names) as [rest|e] eqn:Hrest.
      * split.
        -- intros [= <-]. constructor; [done|]. by apply IH.
        -- intros (r' & rest' & Hr' & Hrest' & ->)%Forall2_cons_inv_l.
           apply IH in Hrest'. by simplify_eq.
      * split; [done|].
        intros (r' & rest' & _ & Hrest' & ->)%Forall2_cons_inv_l.
        by apply IH in Hrest'.
    + split; [done|].
      intros (r' & rest' & Hr' & _ & ->)%Forall2_cons_inv_l. congruence.
Qed.

Lemma resolve_all_elem names resolved x :
  resolve_all resolve names = Ok resolved →
  x ∈ resolved ↔ ∃ name, name ∈ names ∧ resolve name = Some x.
Proof.
  rewrite resolve_all_Forall2. induction 1 as [|name r names resolved Hr _ IH].
  - split; [by intros ?%not_elem_of_nil|].
    by intros (? & ?%not_elem_of_nil & _).
  - rewrite elem_of_cons, IH. split.
    + intros [->|(n & Hn & Hx)].
      * exists name. split; [by left|done].
      * exists n. split; [by right|done].
    + intros (n & [->|Hn]%elem_of_cons & Hx).
      * left. congruence.
      * right. eauto.
Qed.

Lemma resolve_all_nil names resolved :
  resolve_all resolve names = Ok resolved → resolved = [] ↔ names = [].
Proof.
  rewrite resolve_all_Forall2. intros H.
  apply Forall2_length in H. by destruct names, resolved.
Qed.

Lemma list_to_set_empty (l : list string) :
  list_to_set l =@{gset string} ∅ ↔ l = [].
Proof.
  split; [|by intros ->]. destruct l as [|x l]; [done|].
  intros H. assert (x ∈ (∅ : gset string)) as Hx; [|set_solver].
  rewrite <- H. set_solver.
Qed.

Lemma policy_of_Ok m opts p :
  policy_of resolve m opts = Ok p →
  ∃ bl wl,
    resolve_all resolve (blacklist_of opts) = Ok bl
    ∧ resolve_all resolve (whitelist_of opts) = Ok wl
    ∧ p = Policy (list_to_set bl) (list_to_set wl) (bare_of opts) m.
Proof.
  unfold policy_of.
  destruct (resolve_all resolve (blacklist_of opts)) as [bl|]; [|done].
  destruct (resolve_all resolve (whitelist_of opts)) as [wl|]; [|done].
  intros [= <-]. eauto.
Qed.

(** X3. What the checks on the array lengths achieve: the handler of every
    accepted invocation satisfies the mutual-exclusivity invariant on its
    sets, carries the requested name and the bare flag as given, and has an
    empty set exactly where the list given was empty -- a listed name is
    never lost on the way to the set. *)
Theorem accepted_policy_shape m opts p :
  ¬ invalid_combination opts →
  policy_of resolve m opts = Ok p →
  mutually_exclusive (blacklist p) (whitelist p) (bare p)
  ∧ moduleName p = m
  ∧ bare p = bare_of opts
  ∧ (blacklist p = ∅ ↔ blacklist_of opts = [])
  ∧ (whitelist p = ∅ ↔ whitelist_of opts = []).
Proof.
  intros Hv (bl & wl & Hbl & Hwl & ->)%policy_of_Ok. simpl.
  assert (list_to_set bl =@{gset string} ∅ ↔ blacklist_of opts = []) as Hb
    by by rewrite list_to_set_empty, (resolve_all_nil _ _ Hbl).
  assert (list_to_set wl =@{gset string} ∅ ↔ whitelist_of opts = []) as Hw
    by by rewrite list_to_set_empty, (resolve_all_nil _ _ Hwl).
  split; [|done]. unfold mutually_exclusive. rewrite Hb, Hw.
  unfold invalid_combination in Hv.
  destruct (decide (blacklist_of opts = [])),
           (decide (whitelist_of opts = [])); split; auto.
  all: try (intros Hbare; destruct Hv; by auto).
  destruct Hv. by auto.
Qed.

(** X4. What the options mean, in the names as the caller wrote them: under
    an accepted invocation a key is forbidden exactly when bare is set and
    the key is not what the requested name resolves to, or some blacklisted
    name resolves to the key, or a whitelist is given and none of its names
    resolves to the key. *)
Theorem options_meaning m opts p k :
  ¬ invalid_combination opts →
  policy_of resolve m opts = Ok p →
  forbidden resolve p k = Ok true ↔
    (bare_of opts = true → is_Some (resolve m))
    ∧ ((bare_of opts = true ∧ resolve m ≠ Some k)
       ∨ (∃ name, name ∈ blacklist_of opts ∧ resolve name = Some k)
       ∨ (whitelist_of opts ≠ []
          ∧ ¬ ∃ name, name ∈ whitelist_of opts ∧ resolve name = Some k)).
Proof.
  intros Hv (bl & wl & Hbl & Hwl & ->)%policy_of_Ok.
  unfold forbidden. simpl.
  rewrite isForbidden_true_iff, !elem_of_list_to_set, list_to_set_empty.
  rewrite (resolve_all_elem _ _ k Hbl), (resolve_all_elem _ _ k Hwl).
  by rewrite (resolve_all_nil _ _ Hwl).
Qed.

Lemma invalid_combination_nonempty opts opts' :
  (blacklist_of opts = [] ↔ blacklist_of opts' = []) →
  (whitelist_of opts = [] ↔ whitelist_of opts' = []) →
  bare_of opts = bare_of opts' →
  (invalid_combination opts ↔ invalid_combination opts')
  ∧ rejection opts = rejection opts'.
Proof.
  intros Hb Hw Hs. unfold invalid_combination, rejection. rewrite Hs.
  split; [tauto|].
  assert (nonempty (blacklist_of opts) = nonempty (blacklist_of opts')) as ->.
  { destruct (blacklist_of opts), (blacklist_of opts'); try done.
    - by destruct (proj1 Hb eq_refl).
    - by destruct (proj2 Hb eq_refl). }
  assert (nonempty (whitelist_of opts) = nonempty (whitelist_of opts')) as ->.
  { destruct (whitelist_of opts), (whitelist_of opts'); try done.
    - by destruct (proj1 Hw eq_refl).
    - by destruct (proj2 Hw eq_refl). }
  done.
Qed.

(** X5. The lists are sets of resolved names: two invocations whose lists
    resolve to the same names -- in another order, with repetitions, or in
    other spellings of the same modules -- and whose bare flags coincide do
    the same thing, for every loader and in every state. *)
Theorem lists_are_sets require m opts opts' s bl bl' wl wl' :
  resolve_all resolve (blacklist_of opts) = Ok bl →
  resolve_all resolve (blacklist_of opts') = Ok bl' →
  resolve_all resolve (whitelist_of opts) = Ok wl →
  resolve_all resolve (whitelist_of opts') = Ok wl' →
  (∀ x, x ∈ bl ↔ x ∈ bl') →
  (∀ x, x ∈ wl ↔ x ∈ wl') →
  bare_of opts = bare_of opts' →
  snykwire resolve require m opts s = snykwire resolve require m opts' s.
Proof.
  intros Hbl Hbl' Hwl Hwl' Hb Hw Hs.
  assert (list_to_set bl =@{gset string} list_to_set bl') as Eb
    by (apply set_eq; intros x; by rewrite !elem_of_list_to_set).
  assert (list_to_set wl =@{gset string} list_to_set wl') as Ew
    by (apply set_eq; intros x; by rewrite !elem_of_list_to_set).
  destruct (invalid_combination_nonempty opts opts') as [Hi Hr]; [| |done|].
  { by rewrite <- (resolve_all_nil _ _ Hbl), <- (resolve_all_nil _ _ Hbl'),
      <- !list_to_set_empty, Eb. }
  { by rewrite <- (resolve_all_nil _ _ Hwl), <- (resolve_all_nil _ _ Hwl'),
      <- !list_to_set_empty, Ew. }
  destruct (decide (invalid_combination opts)) as [H|H].
  - rewrite !snykwire_invalid by tauto. by rewrite Hr.
  - rewrite !snykwire_valid by tauto.
    unfold policy_of. by rewrite Hbl, Hbl', Hwl, Hwl', Eb, Ew, Hs.
Qed.

Lemma resolve_all_app names names' :
  resolve_all resolve (names ++ names')%list =
    match resolve_all resolve names with
    | Err e => Err e
    | Ok resolved =>
        match resolve_all resolve names' with
        | Err e => Err e
        | Ok resolved' => Ok (resolved ++ resolved')%list
        end
    end.
Proof.
  induction names as [|name names IH]; simpl.
  - by destruct (resolve_all resolve names').
  - destruct (require_resolve resolve name); [|done]. rewrite IH.
    destruct (resolve_all resolve names); [|done].
    by destruct (resolve_all resolve names').
Qed.

Lemma resolve_all_first_unresolvable pre name post :
  Forall (λ n, is_Some (resolve n)) pre →
  resolve name = None →
  resolve_all resolve (pre ++ name :: post)%list = Err (CannotFindModule name).
Proof.
  intros Hpre Hname. induction Hpre as [|n pre [r Hr] _ IH]; simpl.
  - unfold require_resolve. by rewrite Hname.
  - unfold require_resolve. by rewrite Hr, IH.
Qed.

(** X6. Resolution of the lists: in an accepted combination the names are
    resolved in the order given, the blacklist before the whitelist, and the
    first one that does not resolve ends the invocation with the resolver's
    error for that name; nothing has been installed, the loader has not
    been called and the state is the one on entry. *)
Theorem first_unresolvable_entry require m opts s pre name post :
  ¬ invalid_combination opts →
  (blacklist_of opts ++ whitelist_of opts)%list = (pre ++ name :: post)%list →
  Forall (λ n, is_Some (resolve n)) pre →
  resolve name = None →
  snykwire resolve require m opts s = (Err (CannotFindModule name), s).
Proof.
  intros Hv Hsplit Hpre Hname. rewrite snykwire_valid by done.
  pose proof (resolve_all_first_unresolvable pre name post Hpre Hname) as H.
  rewrite <- Hsplit, resolve_all_app in H. unfold policy_of.
  destruct (resolve_all resolve (blacklist_of opts)); [|by simplify_eq].
  destruct (resolve_all resolve (whitelist_of opts)); [done|by simplify_eq].
Qed.

(** *** Views over views *)



(** *** What the trapped operations can neither change nor tell *)

Lemma refused_Err ps k :
  ensure_all resolve ps k ≠ Ok () → ∃ e, ensure_all resolve ps k = Err e.
Proof. destruct (ensure_all resolve ps k) as [[]|e]; [done|eauto]. Qed.

Lemma refused_cons p ps k :
  ensure_all resolve ps k ≠ Ok () → ensure_all resolve (p :: ps) k ≠ Ok ().
Proof. simpl. by destruct (ensure resolve p k). Qed.

Lemma not_allowed_refused p ps k :
  forbidden resolve p k ≠ Ok false → ensure_all resolve (p :: ps) k ≠ Ok ().
Proof.
  intros H. rewrite ensure_all_cons.
  by destruct (forbidden resolve p k) as [[]|].
Qed.

Lemma ref_set_entry c k v s k' l :
  ensure_all resolve (policies c) k' ≠ Ok () →
  (heap (ref_set resolve c k v s).2 !!! l) !! k' = (heap s !!! l) !! k'.
Proof.
  intros H. rewrite ref_set_chain.
  destruct (decide (k = k')) as [->|Hk].
  - by destruct (refused_Err _ _ H) as [e ->].
  - destruct (ensure_all resolve (policies c) k); [|done].
    unfold plain_set. case_decide; [|done].
    by apply update_object_insert_ne.
Qed.

Lemma ref_set_strict_entry c k v s k' l :
  ensure_all resolve (policies c) k' ≠ Ok () →
  (heap (ref_set_strict resolve c k v s).2 !!! l) !! k' =
  (heap s !!! l) !! k'.
Proof. destruct c; [done|]. apply ref_set_entry. Qed.

Lemma ref_delete_entry c k s k' l :
  ensure_all resolve (policies c) k' ≠ Ok () →
  (heap (ref_delete resolve c k s).2 !!! l) !! k' = (heap s !!! l) !! k'.
Proof.
  intros H. rewrite ref_delete_chain.
  destruct (decide (k = k')) as [->|Hk].
  - by destruct (refused_Err _ _ H) as [e ->].
  - destruct (ensure_all resolve (policies c) k); [|done].
    by apply update_object_delete_ne.
Qed.

Lemma ref_preventExtensions_heap c s :
  heap (ref_preventExtensions c s).2 = heap s.
Proof. by destruct c. Qed.

(** Whatever loaded code does through the trapped operations, an entry
    whose key the installed view refuses stays as it is. *)
Lemma run_refused_entry k l p :
  ∀ s, trapped_only p →
       ensure_all resolve (policies (Module_cache s)) k ≠ Ok () →
       (heap (run resolve p s).2 !!! l) !! k = (heap s !!! l) !! k.
Proof.
  induction p as [v|e|k' cont IH|k' v cont IH|k' cont IH|k' cont IH|cont IH
                 |body IHbody cont IH|m opts body IHbody cont IH
                 |k' v cont IH|k' cont IH|cont IH];
    intros s Ht Hk; simpl in Ht |- *; try done;
    unfold bind, on_Module_cache, catch.
  - pose proof (ref_get_state (Module_cache s) k' s) as Hs.
    destruct (ref_get _ _ _ _) as [[v|e] s']; simpl in Hs; subst s'; [|done].
    by apply IH.
  - pose proof (ref_set_strict_Module_cache (Module_cache s) k' v s) as Hc.
    pose proof (ref_set_strict_entry (Module_cache s) k' v s k l Hk) as He.
    destruct (ref_set_strict _ _ _ _ _) as [[b|e] s']; simpl in *; [|done].
    rewrite IH; [done..|]. by rewrite Hc.
  - pose proof (ref_has_state (Module_cache s) k' s) as Hs.
    destruct (ref_has _ _ _ _) as [[b|e] s']; simpl in Hs; subst s'; [|done].
    by apply IH.
  - pose proof (ref_delete_Module_cache (Module_cache s) k' s) as Hc.
    pose proof (ref_delete_entry (Module_cache s) k' s k l Hk) as He.
    destruct (ref_delete _ _ _ _) as [[b|e] s']; simpl in *; [|done].
    rewrite IH; [done..|]. by rewrite Hc.
  - pose proof (ref_preventExtensions_Module_cache (Module_cache s) s) as Hc.
    pose proof (ref_preventExtensions_heap (Module_cache s) s) as He.
    destruct (ref_preventExtensions _ _) as [[b|e] s']; simpl in *;
      [|by rewrite He].
    rewrite IH; [by rewrite He|done|by rewrite Hc].
  - destruct Ht as [Htb Htc].
    pose proof (run_Module_cache body s) as Hc.
    pose proof (IHbody s Htb Hk) as He.
    destruct (run resolve body s) as [r s']; simpl in *.
    rewrite IH; [done..|]. by rewrite Hc.
  - destruct Ht as [Htb Htc].
    pose proof (snykwire_Module_cache (λ _, run resolve body) m opts s) as Hc.
    assert ((heap (snykwire resolve (λ _, run resolve body) m opts s).2 !!! l)
              !! k = (heap s !!! l) !! k) as He.
    { destruct (decide (invalid_combination opts)) as [H|H].
      - by rewrite snykwire_invalid.
      - rewrite snykwire_valid by done.
        destruct (policy_of resolve m opts) as [p|e]; [|done]. simpl.
        rewrite IHbody; [done..|]. by apply refused_cons. }
    destruct (snykwire _ _ _ _ _) as [[v|e] s']; simpl in *; [|done].
    rewrite IH; [done..|]. by rewrite Hc.
Qed.

(** X8. Integrity of what the policy withholds, as far as the traps reach.
    Whatever loaded code and the loads nested in it do through the
    operations the proxy traps, and however the invocation ends -- normal
    return included -- the cache entry under a key that the policy does not
    allow is after the invocation what it was before. *)
Theorem withheld_entries_untouched m opts body s p k l :
  policy_of resolve m opts = Ok p →
  forbidden resolve p k ≠ Ok false →
  trapped_only body →
  (heap (guardedRequire resolve m opts body s).2 !!! l) !! k =
  (heap s !!! l) !! k.
Proof.
  intros Hp Hk Ht. unfold guardedRequire.
  destruct (decide (invalid_combination opts)) as [H|H].
  - by rewrite snykwire_invalid.
  - rewrite snykwire_valid, Hp by done. simpl.
    rewrite run_refused_entry; [done..|]. by apply not_allowed_refused.
Qed.

Lemma alike_update hidden l f g s s' :
  alike hidden s s' →
  (∀ (o o' : gmap string value) k',
     ¬ hidden k' → o !! k' = o' !! k' → f o !! k' = g o' !! k') →
  alike hidden (update_object l f s) (update_object l g s').
Proof.
  intros (Hc & Hn & Hx & Hh) Hf. repeat split; try done.
  intros l' k' Hk'. rewrite !update_object_lookup.
  case_decide; [|by apply Hh]. apply Hf; [done|]. by apply Hh.
Qed.

Lemma alike_insert hidden l k v s s' :
  alike hidden s s' →
  alike hidden (update_object l (λ o, <[k := v]> o) s)
               (update_object l (λ o, <[k := v]> o) s').
Proof.
  intros Ha. apply alike_update; [done|].
  intros o o' k' _ Ho. destruct (decide (k = k')) as [->|Hne].
  - by rewrite !lookup_insert_eq.
  - by rewrite !lookup_insert_ne.
Qed.

Lemma alike_delete hidden l k s s' :
  alike hidden s s' →
  alike hidden (update_object l (λ o, delete k o) s)
               (update_object l (λ o, delete k o) s').
Proof.
  intros Ha. apply alike_update; [done|].
  intros o o' k' _ Ho. destruct (decide (k = k')) as [->|Hne].
  - by rewrite !lookup_delete_eq.
  - by rewrite !lookup_delete_ne.
Qed.

Lemma alike_accepts hidden s s' l k :
  alike hidden s s' → ¬ hidden k → accepts s l k ↔ accepts s' l k.
Proof.
  intros (_ & _ & Hx & Hh) Hk. unfold accepts. by rewrite Hx, (Hh l k Hk).
Qed.

Lemma alike_plain_set hidden l k v s s' :
  alike hidden s s' → ¬ hidden k →
  ∃ r t t', plain_set l k v s = (r, t) ∧ plain_set l k v s' = (r, t')
            ∧ alike hidden t t'.
Proof.
  intros Ha Hk. unfold plain_set.
  pose proof (alike_accepts hidden s s' l k Ha Hk) as Hacc.
  destruct (decide (accepts s l k)) as [H|H].
  - rewrite decide_True by tauto. do 3 eexists.
    split; [done|]. split; [done|]. by apply alike_insert.
  - rewrite decide_False by tauto. by eauto 6.
Qed.

Lemma alike_plain_set_strict hidden l k v s s' :
  alike hidden s s' → ¬ hidden k →
  ∃ r t t', plain_set_strict l k v s = (r, t)
            ∧ plain_set_strict l k v s' = (r, t')
            ∧ alike hidden t t'.
Proof.
  intros Ha Hk. unfold plain_set_strict.
  pose proof (alike_accepts hidden s s' l k Ha Hk) as Hacc.
  destruct (decide (accepts s l k)) as [H|H].
  - rewrite decide_True by tauto. do 3 eexists.
    split; [done|]. split; [done|]. by apply alike_insert.
  - rewrite decide_False by tauto. by eauto 6.
Qed.

Lemma alike_ref_set hidden c k v s s' :
  (∀ k, hidden k → ensure_all resolve (policies c) k ≠ Ok ()) →
  alike hidden s s' →
  ∃ r t t', ref_set resolve c k v s = (r, t)
            ∧ ref_set resolve c k v s' = (r, t')
            ∧ alike hidden t t'.
Proof.
  intros Hhid Ha. rewrite !ref_set_chain.
  destruct (ensure_all resolve (policies c) k) as [[]|e] eqn:E;
    [|by eauto 6].
  apply alike_plain_set; [done|]. intros Hk. by apply (Hhid k Hk).
Qed.

Lemma alike_ref_set_strict hidden c k v s s' :
  (∀ k, hidden k → ensure_all resolve (policies c) k ≠ Ok ()) →
  alike hidden s s' →
  ∃ r t t', ref_set_strict resolve c k v s = (r, t)
            ∧ ref_set_strict resolve c k v s' = (r, t')
            ∧ alike hidden t t'.
Proof.
  intros Hhid Ha. destruct c as [l|id target p].
  - apply alike_plain_set_strict; [done|]. intros Hk. by apply (Hhid k Hk).
  - by apply alike_ref_set.
Qed.

Lemma alike_preventExtensions hidden c s s' :
  alike hidden s s' →
  ∃ r t t', ref_preventExtensions c s = (r, t)
            ∧ ref_preventExtensions c s' = (r, t')
            ∧ alike hidden t t'.
Proof.
  intros Ha. destruct c as [l|id target p]; simpl; [|by eauto 6].
  do 3 eexists. split; [done|]. split; [done|].
  destruct Ha as (Hc & Hn & Hx & Hh). repeat split; simpl; try done.
  by rewrite Hx.
Qed.

(** Loaded code that keeps to the trapped operations, under a view that
    withholds the keys in [hidden], cannot tell apart two states that
    differ under those keys only. *)
Lemma run_alike (hidden : string → Prop) p :
  ∀ s s',
    trapped_only p →
    (∀ k, hidden k →
          ensure_all resolve (policies (Module_cache s)) k ≠ Ok ()) →
    alike hidden s s' →
    (run resolve p s).1 = (run resolve p s').1
    ∧ alike hidden (run resolve p s).2 (run resolve p s').2.
Proof.
  induction p as [v|e|k cont IH|k v cont IH|k cont IH|k cont IH|cont IH
                 |body IHbody cont IH|m opts body IHbody cont IH
                 |k v cont IH|k cont IH|cont IH];
    intros s s' Ht Hhid Ha; simpl in Ht |- *;
    unfold bind, on_Module_cache, catch;
    try done; pose proof Ha as (Hc & Hn & Hx & Hh); rewrite <- ?Hc.
  - rewrite !ref_get_chain.
    destruct (ensure_all resolve (policies (Module_cache s)) k) as [[]|e]
      eqn:E; [|done].
    unfold plain_get. rewrite <- Hh; [by apply IH|].
    intros Hk. by apply (Hhid k Hk).
  - destruct (alike_ref_set_strict hidden (Module_cache s) k v s s' Hhid Ha)
      as (r & t & t' & Ht1 & Ht2 & Ha').
    pose proof (ref_set_strict_Module_cache (Module_cache s) k v s) as Hct.
    rewrite Ht1 in Hct |- *. rewrite Ht2. simpl in Hct.
    destruct r as [b|e]; [|done]. apply IH; [done| |done]. by rewrite Hct.
  - rewrite !ref_has_chain.
    destruct (ensure_all resolve (policies (Module_cache s)) k) as [[]|e]
      eqn:E; [|done].
    unfold plain_has. rewrite <- Hh; [by apply IH|].
    intros Hk. by apply (Hhid k Hk).
  - rewrite !ref_delete_chain.
    destruct (ensure_all resolve (policies (Module_cache s)) k) as [[]|e]
      eqn:E; [|done].
    unfold plain_delete. apply IH; [done..|]. by apply alike_delete.
  - destruct (alike_preventExtensions hidden (Module_cache s) s s' Ha)
      as (r & t & t' & Ht1 & Ht2 & Ha').
    pose proof (ref_preventExtensions_Module_cache (Module_cache s) s) as Hct.
    rewrite Ht1 in Hct |- *. rewrite Ht2. simpl in Hct.
    destruct r as [[]|e]; [|done]. apply IH; [done| |done]. by rewrite Hct.
  - destruct Ht as [Htb Htc].
    destruct (IHbody s s' Htb Hhid Ha) as [Hr Ha'].
    pose proof (run_Module_cache body s) as Hcs.
    destruct (run resolve body s) as [r t].
    destruct (run resolve body s') as [r' t'].
    simpl in *. subst r'. apply IH; [done| |done]. by rewrite Hcs.
  - destruct Ht as [Htb Htc].
    assert (∃ r t t',
        snykwire resolve (λ _, run resolve body) m opts s = (r, t)
        ∧ snykwire resolve (λ _, run resolve body) m opts s' = (r, t')
        ∧ alike hidden t t'
        ∧ Module_cache t = Module_cache s)
      as (r & t & t' & -> & -> & Ha' & Hct).
    { destruct (decide (invalid_combination opts)) as [H|H].
      - rewrite !snykwire_invalid by done. by eauto 8.
      - rewrite !snykwire_valid by done.
        destruct (policy_of resolve m opts) as [p|e]; [|by eauto 8].
        destruct (IHbody (installed p s) (installed p s')) as [Hr Ha'];
          [done| | |].
        + intros k Hk. by apply refused_cons, Hhid.
        + unfold installed. rewrite Hc, Hn, Hx. by repeat split.
        + simpl. rewrite Hr. do 3 eexists. split; [done|]. split; [done|].
          split; [|done]. destruct Ha' as (_ & Hn' & Hx' & Hh').
          by repeat split. }
    destruct r as [v|e]; [|done]. apply IH; [done| |done]. by rewrite Hct.
Qed.

(** X9. Confidentiality of what the policy withholds, as far as the traps
    reach.  Two runs of the same guarded load, whose code keeps to the
    operations the proxy traps, from states that differ only in the entries
    under keys the policy does not allow end in the same outcome and in
    states that again differ only there: nothing such code returns, throws
    or writes depends on a withheld entry or on its presence. *)
Theorem withheld_entries_unobservable m opts body s s' p :
  policy_of resolve m opts = Ok p →
  trapped_only body →
  alike (λ k, forbidden resolve p k ≠ Ok false) s s' →
  (guardedRequire resolve m opts body s).1 =
    (guardedRequire resolve m opts body s').1
  ∧ alike (λ k, forbidden resolve p k ≠ Ok false)
      (guardedRequire resolve m opts body s).2
      (guardedRequire resolve m opts body s').2.
Proof.
  intros Hp Ht Ha. unfold guardedRequire.
  destruct (decide (invalid_combination opts)) as [H|H].
  - by rewrite !snykwire_invalid.
  - rewrite !snykwire_valid, Hp by done. simpl.
    pose proof Ha as (Hc & Hn & Hx & Hh).
    destruct (run_alike (λ k, forbidden resolve p k ≠ Ok false) body
                (installed p s) (installed p s'))
      as [Hr (_ & Hn' & Hx' & Hh')]; [done| | |].
    + intros k Hk. by apply not_allowed_refused.
    + unfold installed. rewrite Hc, Hn, Hx. by repeat split.
    + split; [done|]. by repeat split.
Qed.

(** *** Violations during a load *)

Lemma policy_of_moduleName m opts p :
  policy_of resolve m opts = Ok p → moduleName p = m.
Proof. by intros (bl & wl & _ & _ & ->)%policy_of_Ok. Qed.

(** X10. A load that starts with an operation on a forbidden key -- as the
    host loader does when the requested module itself is blacklisted or
    missing from the whitelist -- fails with the forbidden-action error that
    names the requested module and the key, whichever of read, write,
    existence check and delete the operation is; the cache contents are
    untouched and the reference is back in place. *)
Theorem first_forbidden_access_fails m opts p k v s
    (after_get : value → prog) (after_has : bool → prog)
    (after_set after_delete : prog) :
  ¬ invalid_combination opts →
  policy_of resolve m opts = Ok p →
  forbidden resolve p k = Ok true →
  let failed :=
    (Err (ForbiddenAction m k),
     set_Module_cache (Module_cache s) (installed p s)) in
  guardedRequire resolve m opts (CacheGet k after_get) s = failed
  ∧ guardedRequire resolve m opts (CacheSet k v after_set) s = failed
  ∧ guardedRequire resolve m opts (CacheHas k after_has) s = failed
  ∧ guardedRequire resolve m opts (CacheDelete k after_delete) s = failed
  ∧ heap failed.2 = heap s
  ∧ Module_cache failed.2 = Module_cache s.
Proof.
  intros Hv Hp Hk failed. subst failed. unfold guardedRequire.
  rewrite !snykwire_valid, Hp by done.
  pose proof (policy_of_moduleName m opts p Hp) as Hm.
  cbn [run]. unfold bind, on_Module_cache, installed, ref_set_strict.
  cbn [Module_cache].
  rewrite get_trap, set_trap, has_trap, deleteProperty_trap, Hk, Hm.
  by repeat split.
Qed.

(** X11. A violation is an ordinary exception, and the exported function
    has no handler of its own: loaded code that catches the error of a
    forbidden access carries on, and the invocation ends as the rest of the
    load does, in a normal return if the load returns. *)
Theorem violation_can_be_caught m opts p k s
    (after_get : value → prog) (handler : result value → prog) :
  ¬ invalid_combination opts →
  policy_of resolve m opts = Ok p →
  forbidden resolve p k = Ok true →
  guardedRequire resolve m opts (TryCatch (CacheGet k after_get) handler) s =
    guardedRequire resolve m opts (handler (Err (ForbiddenAction m k))) s
  ∧ ∀ v, (guardedRequire resolve m opts
            (TryCatch (CacheGet k after_get) (λ _, Return v)) s).1 = Ok v.
Proof.
  intros Hv Hp Hk. unfold guardedRequire.
  rewrite !snykwire_valid, Hp by done.
  pose proof (policy_of_moduleName m opts p Hp) as Hm.
  assert (∀ h, run resolve (TryCatch (CacheGet k after_get) h)
                 (installed p s) =
               run resolve (h (Err (ForbiddenAction m k))) (installed p s))
    as Hrun.
  { intros h. cbn [run].
    unfold bind, catch, on_Module_cache, installed. cbn [Module_cache].
    by rewrite get_trap, Hk, Hm. }
  split.
  - cbv beta zeta. by rewrite Hrun.
  - intros v. rewrite snykwire_valid, Hp by done. cbv beta zeta.
    by rewrite Hrun.
Qed.

(** *** Guarded and ordinary runs side by side *)

















(** *** The unrestricted load *)







(** *** Code that stays within the policy *)


(** *** Operations the proxy does not trap *)

(** X13. The handler has no trap for defining a property, for reading a
    property descriptor or for listing the own keys, so the three reach the
    original cache whatever the policy: under any accepted policy, loaded
    code that defines an entry under a key -- a forbidden one too -- stores
    it where the cache takes the key, loaded code that asks for the
    descriptor of an entry is handed the entry, and loaded code that lists
    the keys finds the key among them exactly when the cache holds it, with
    no access violation in any of the three cases. *)
Theorem untrapped_operations_bypass_policy m opts p k v s :
  ¬ invalid_combination opts →
  policy_of resolve m opts = Ok p →
  (accepts s (underlying (Module_cache s)) k →
     (guardedRequire resolve m opts
        (CacheDefineProperty k v (Return VUndefined)) s).1 = Ok VUndefined
     ∧ (heap (guardedRequire resolve m opts
          (CacheDefineProperty k v (Return VUndefined)) s).2
          !!! underlying (Module_cache s)) !! k = Some v)
  ∧ (guardedRequire resolve m opts
       (CacheGetOwnPropertyDescriptor k
          (λ d, Return (default VUndefined d))) s).1 =
    Ok (default VUndefined ((heap s !!! underlying (Module_cache s)) !! k))
  ∧ (guardedRequire resolve m opts
       (CacheOwnKeys (λ ks, Return (VBool (bool_decide (k ∈ ks))))) s).1 =
    Ok (VBool (bool_decide
                 (is_Some ((heap s !!! underlying (Module_cache s)) !! k)))).
Proof.
  intros Hv Hp. unfold guardedRequire. split; [|split].
  - intros Hacc. rewrite !snykwire_valid, Hp by done. cbn [run].
    unfold bind, on_Module_cache, installed, ref_defineProperty,
      plain_defineProperty.
    cbn [Module_cache underlying heap non_extensible].
    destruct (decide (accepts _ _ _)) as [_|Hn]; [|by destruct Hn].
    simpl. split; [done|].
    by rewrite lookup_total_insert_eq, lookup_insert_eq.
  - rewrite snykwire_valid, Hp by done. cbn [run].
    unfold bind, on_Module_cache, installed, ref_getOwnPropertyDescriptor,
      plain_getOwnPropertyDescriptor.
    cbn [Module_cache underlying heap]. done.
  - rewrite snykwire_valid, Hp by done. cbn [run].
    unfold bind, on_Module_cache, installed, ref_ownKeys, plain_ownKeys.
    cbn [Module_cache underlying heap fst ret]. do 2 f_equal.
    apply bool_decide_ext, elem_of_dom.
Qed.

End Properties.

(** ** Instances on the concrete host *)



Lemma trapped_only_load filename exports code cont :
  trapped_only code → (∀ v, trapped_only (cont v)) →
  trapped_only (Example.load filename exports code cont).
Proof.
  intros Hcode Hcont cached. destruct cached; simpl; try done.
  all: split; [done|]; intros [v|e]; simpl; done.
Qed.

Lemma trapped_only_builtin name cont :
  (∀ v, trapped_only (cont v)) → trapped_only (Example.builtin name cont).
Proof. intros Hcont cached. destruct cached; simpl; done. Qed.

Lemma isForbidden_spec_witness :
  mutually_exclusive {["fs"]} ∅ false
  ∧ isForbidden Example.resolve {["fs"]} ∅ false "./m" "fs" =
    spec_isForbidden Example.resolve {["fs"]} ∅ false "./m" "fs".
Proof.
  assert (mutually_exclusive {["fs"]} ∅ false) as H.
  { split; [discriminate|right; reflexivity]. }
  exact (conj H (isForbidden_spec Example.resolve _ _ _ "./m" "fs" H)).
Defined.



Lemma lock_attempt_always_fails_witness :
  let opts := Some (Options None (Some ["fs"]) None) in
  let p := Policy (list_to_set []) (list_to_set ["fs"]) false "./freezer" in
  ¬ invalid_combination opts
  ∧ policy_of Example.resolve "./freezer" opts = Ok p
  ∧ guardedRequire Example.resolve "./freezer" opts
      (CachePreventExtensions (Return VUndefined)) Example.s0 =
    (Err (LockAttempt "./freezer"),
     set_Module_cache (Module_cache Example.s0) (installed p Example.s0)).
Proof.
  intros opts p.
  assert (¬ invalid_combination opts) as Hv.
  { intros [[H _]|[H _]]; [by apply H|discriminate H]. }
  assert (policy_of Example.resolve "./freezer" opts = Ok p) as Hp
    by reflexivity.
  split; [exact Hv|]. split; [exact Hp|].
  pose proof (lock_attempt_always_fails Example.resolve 0 (Plain 0) p
                Example.s0 "./freezer" (Return VUndefined)) as T.
  exact (proj2 (proj2 (proj2 (proj2 (proj2 T)))) opts Hv Hp).
Defined.

Lemma invalid_options_rejected_witness :
  let opts := Some (Options (Some ["fs"]) (Some ["fs"]) None) in
  invalid_combination opts
  ∧ ∃ e, snykwire Example.resolve (λ _, run Example.resolve Example.requires_fs)
           "./m" opts Example.s0 = (Err e, Example.s0)
         ∧ kind_of e = ConfigurationError
         ∧ (e = BothListsError ∨ e = BareWithListError).
Proof.
  intros opts.
  assert (invalid_combination opts) as H by (left; split; discriminate).
  exact (conj H (invalid_options_rejected Example.resolve _ "./m" opts
                   Example.s0 H)).
Defined.

Lemma guarded_has_witness :
  let p := Policy {["fs"]} ∅ false "./m" in
  forbidden Example.resolve p "fs" = Ok true
  ∧ ref_has Example.resolve (Proxy 0 (Plain 0) p) "fs" Example.s0 =
      (Err (ForbiddenAction "./m" "fs"), Example.s0)
  ∧ ref_get Example.resolve (Proxy 0 (Plain 0) p) "fs" Example.s0 =
      (Err (ForbiddenAction "./m" "fs"), Example.s0).
Proof.
  intros p.
  assert (forbidden Example.resolve p "fs" = Ok true) as H
    by (vm_compute; reflexivity).
  split; [exact H|].
  pose proof (guarded_has Example.resolve 0 (Plain 0) 0 p "fs" Example.s0) as T.
  destruct (proj1 (proj2 T) H) as (Hhas & Hget & _).
  exact (conj Hhas Hget).
Defined.

Lemma failure_keeps_permitted_writes :
  let r := guardedRequire Example.resolve "./m"
             (Some (Options (Some ["fs"]) None None))
             Example.requires_a_then_fs Example.s0 in
  r.1 = Err (ForbiddenAction "./m" "fs")
  ∧ Module_cache r.2 = Module_cache Example.s0
  ∧ (heap Example.s0 !!! 0) !! "/app/a.js" = None
  ∧ (heap r.2 !!! 0) !! "/app/a.js" = Some (VModule (VStr "a"))
  ∧ heap r.2 ≠ heap Example.s0.
Proof.
  intros r. split; [vm_compute; reflexivity|].
  split; [vm_compute; reflexivity|].
  split; [vm_compute; reflexivity|].
  assert ((heap r.2 !!! 0) !! "/app/a.js" = Some (VModule (VStr "a"))) as H
    by (vm_compute; reflexivity).
  split; [exact H|].
  intros E. rewrite E in H. vm_compute in H. discriminate.
Qed.

Lemma failed_load_effects_witness :
  let opts := Some (Options (Some ["fs"]) None None) in
  let r := guardedRequire Example.resolve "./m" opts
             Example.requires_a_then_fs Example.s0 in
  guardedRequire Example.resolve "./m" opts Example.requires_a_then_fs
    Example.s0 = (Err (ForbiddenAction "./m" "fs"), r.2)
  ∧ Module_cache r.2 = Module_cache Example.s0.
Proof.
  intros opts r.
  assert (guardedRequire Example.resolve "./m" opts Example.requires_a_then_fs
            Example.s0 = (Err (ForbiddenAction "./m" "fs"), r.2)) as H
    by (vm_compute; reflexivity).
  split; [exact H|].
  exact (proj1 (failed_load_effects Example.resolve
                  (λ _, run Example.resolve Example.requires_a_then_fs)
                  "./m" opts Example.s0 _ _ H)).
Defined.


(** On a cache that is already non-extensible, the unrestricted guarded
    load completes and caches nothing where the ordinary load throws. *)
Example unrestricted_load_on_locked_cache :
  (guardedRequire Example.resolve "./okay" None Example.okay
     Example.locked).1 = Ok (VStr "ok")
  ∧ (ordinaryRequire Example.resolve Example.okay Example.locked).1 =
      Err (CannotAddProperty "/app/okay.js").
Proof. split; vm_compute; reflexivity. Qed.


Lemma validation_precedes_resolution_witness :
  let opts := Some (Options (Some ["missing"]) None (Some true)) in
  invalid_combination opts
  ∧ "missing" ∈ (blacklist_of opts ++ whitelist_of opts)%list
  ∧ Example.resolve "missing" = None
  ∧ snykwire Example.resolve (λ _, run Example.resolve Example.okay)
      "./okay" opts Example.s0 = (Err BareWithListError, Example.s0).
Proof.
  intros opts.
  assert (invalid_combination opts) as Hi.
  { right. split; [reflexivity|left; discriminate]. }
  assert ("missing" ∈ (blacklist_of opts ++ whitelist_of opts)%list) as Hm.
  { apply list_elem_of_here. }
  assert (Example.resolve "missing" = None) as Hr by reflexivity.
  split; [exact Hi|]. split; [exact Hm|]. split; [exact Hr|].
  exact (proj1 (validation_precedes_resolution Example.resolve
                  (λ _, run Example.resolve Example.okay) "./okay" opts
                  Example.s0 "missing" Hi Hm Hr)).
Defined.



(** ** Instances of the further properties *)



Lemma isForbidden_monotone_witness :
  ({["fs"]} : gset string) ⊆ {["fs"; "net"]}
  ∧ (∅ : gset string) ⊆ ∅
  ∧ ((∅ : gset string) ≠ ∅ → (∅ : gset string) ≠ ∅)
  ∧ isForbidden Example.resolve {["fs"]} ∅ false "./m" "fs" = Ok true
  ∧ isForbidden Example.resolve {["fs"; "net"]} ∅ false "./m" "fs" = Ok true.
Proof.
  assert (({["fs"]} : gset string) ⊆ {["fs"; "net"]}) as H1 by set_solver.
  assert ((∅ : gset string) ⊆ ∅) as H2 by done.
  assert ((∅ : gset string) ≠ ∅ → (∅ : gset string) ≠ ∅) as H3 by done.
  assert (isForbidden Example.resolve {["fs"]} ∅ false "./m" "fs" = Ok true)
    as H4 by (vm_compute; reflexivity).
  split; [exact H1|]. split; [exact H2|]. split; [exact H3|].
  split; [exact H4|].
  exact (isForbidden_monotone Example.resolve _ _ _ _ false "./m" "fs"
           H1 H2 H3 H4).
Defined.

Lemma accepted_policy_shape_witness :
  let opts := Some (Options None (Some ["net"; "./a"]) None) in
  let p := Policy (list_to_set []) (list_to_set ["net"; "/app/a.js"])
             false "./m" in
  ¬ invalid_combination opts
  ∧ policy_of Example.resolve "./m" opts = Ok p
  ∧ mutually_exclusive (blacklist p) (whitelist p) (bare p)
  ∧ (whitelist p = ∅ ↔ whitelist_of opts = []).
Proof.
  intros opts p.
  assert (¬ invalid_combination opts) as Hv.
  { intros [[H _]|[H _]]; [by apply H|discriminate H]. }
  assert (policy_of Example.resolve "./m" opts = Ok p) as Hp by reflexivity.
  split; [exact Hv|]. split; [exact Hp|].
  pose proof (accepted_policy_shape Example.resolve "./m" opts p Hv Hp) as T.
  exact (conj (proj1 T) (proj2 (proj2 (proj2 (proj2 T))))).
Defined.

Lemma options_meaning_witness :
  let opts := Some (Options None (Some ["net"; "./a"]) None) in
  let p := Policy (list_to_set []) (list_to_set ["net"; "/app/a.js"])
             false "./m" in
  ¬ invalid_combination opts
  ∧ policy_of Example.resolve "./m" opts = Ok p
  ∧ (forbidden Example.resolve p "/app/a.js" = Ok true ↔
       (bare_of opts = true → is_Some (Example.resolve "./m"))
       ∧ ((bare_of opts = true ∧ Example.resolve "./m" ≠ Some "/app/a.js")
          ∨ (∃ name, name ∈ blacklist_of opts
                     ∧ Example.resolve name = Some "/app/a.js")
          ∨ (whitelist_of opts ≠ []
             ∧ ¬ ∃ name, name ∈ whitelist_of opts
                         ∧ Example.resolve name = Some "/app/a.js"))).
Proof.
  intros opts p.
  assert (¬ invalid_combination opts) as Hv.
  { intros [[H _]|[H _]]; [by apply H|discriminate H]. }
  assert (policy_of Example.resolve "./m" opts = Ok p) as Hp by reflexivity.
  split; [exact Hv|]. split; [exact Hp|].
  exact (options_meaning Example.resolve "./m" opts p "/app/a.js" Hv Hp).
Defined.

Lemma lists_are_sets_witness :
  let opts := Some (Options (Some ["fs"; "./a"]) None None) in
  let opts' := Some (Options (Some ["./a"; "fs"; "fs"]) None None) in
  resolve_all Example.resolve (blacklist_of opts) = Ok ["fs"; "/app/a.js"]
  ∧ resolve_all Example.resolve (blacklist_of opts') =
      Ok ["/app/a.js"; "fs"; "fs"]
  ∧ snykwire Example.resolve (λ _, run Example.resolve Example.requires_fs)
      "./m" opts Example.s0 =
    snykwire Example.resolve (λ _, run Example.resolve Example.requires_fs)
      "./m" opts' Example.s0.
Proof.
  intros opts opts'.
  assert (resolve_all Example.resolve (blacklist_of opts) =
            Ok ["fs"; "/app/a.js"]) as Hb by reflexivity.
  assert (resolve_all Example.resolve (blacklist_of opts') =
            Ok ["/app/a.js"; "fs"; "fs"]) as Hb' by reflexivity.
  assert (resolve_all Example.resolve (whitelist_of opts) = Ok []) as Hw
    by reflexivity.
  assert (resolve_all Example.resolve (whitelist_of opts') = Ok []) as Hw'
    by reflexivity.
  assert (∀ x : string,
            x ∈ ["fs"; "/app/a.js"] ↔ x ∈ ["/app/a.js"; "fs"; "fs"]) as Hsame.
  { intros x. rewrite !elem_of_cons, !elem_of_nil. tauto. }
  assert (∀ x : string, x ∈ @nil string ↔ x ∈ @nil string) as Hnil by done.
  assert (bare_of opts = bare_of opts') as Hbare by reflexivity.
  split; [exact Hb|]. split; [exact Hb'|].
  exact (lists_are_sets Example.resolve _ "./m" opts opts' Example.s0
           _ _ _ _ Hb Hb' Hw Hw' Hsame Hnil Hbare).
Defined.

Lemma first_unresolvable_entry_witness :
  let opts := Some (Options (Some ["fs"; "missing"; "net"]) None None) in
  ¬ invalid_combination opts
  ∧ (blacklist_of opts ++ whitelist_of opts)%list =
      (["fs"] ++ "missing" :: ["net"])%list
  ∧ Forall (λ n, is_Some (Example.resolve n)) ["fs"]
  ∧ Example.resolve "missing" = None
  ∧ snykwire Example.resolve (λ _, run Example.resolve Example.requires_fs)
      "./m" opts Example.s0 = (Err (CannotFindModule "missing"), Example.s0).
Proof.
  intros opts.
  assert (¬ invalid_combination opts) as Hv.
  { intros [[_ H]|[H _]]; [by apply H|discriminate H]. }
  assert ((blacklist_of opts ++ whitelist_of opts)%list =
            (["fs"] ++ "missing" :: ["net"])%list) as Hs by reflexivity.
  assert (Forall (λ n, is_Some (Example.resolve n)) ["fs"]) as Hpre.
  { constructor; [by eexists|constructor]. }
  assert (Example.resolve "missing" = None) as Hn by reflexivity.
  split; [exact Hv|]. split; [exact Hs|]. split; [exact Hpre|].
  split; [exact Hn|].
  exact (first_unresolvable_entry Example.resolve _ "./m" opts Example.s0
           ["fs"] "missing" ["net"] Hv Hs Hpre Hn).
Defined.


Lemma withheld_entries_untouched_witness :
  let opts := Some (Options (Some ["fs"]) None None) in
  let p := Policy (list_to_set ["fs"]) (list_to_set []) false "./m" in
  policy_of Example.resolve "./m" opts = Ok p
  ∧ forbidden Example.resolve p "fs" ≠ Ok false
  ∧ trapped_only Example.requires_a_then_fs
  ∧ (heap (guardedRequire Example.resolve "./m" opts
             Example.requires_a_then_fs Example.s0).2 !!! 0) !! "fs" =
    (heap Example.s0 !!! 0) !! "fs".
Proof.
  intros opts p.
  assert (policy_of Example.resolve "./m" opts = Ok p) as Hp by reflexivity.
  assert (forbidden Example.resolve p "fs" ≠ Ok false) as Hk.
  { assert (forbidden Example.resolve p "fs" = Ok true) as ->
      by (vm_compute; reflexivity).
    discriminate. }
  assert (trapped_only Example.requires_a_then_fs) as Ht.
  { apply trapped_only_load; [|done].
    apply trapped_only_load; [done|]. intros _.
    by apply trapped_only_builtin. }
  split; [exact Hp|]. split; [exact Hk|]. split; [exact Ht|].
  exact (withheld_entries_untouched Example.resolve "./m" opts
           Example.requires_a_then_fs Example.s0 p "fs" 0 Hp Hk Ht).
Defined.

Lemma withheld_entries_unobservable_witness :
  let opts := Some (Options (Some ["fs"]) None None) in
  let p := Policy (list_to_set ["fs"]) (list_to_set []) false "./m" in
  let hidden := λ k, forbidden Example.resolve p k ≠ Ok false in
  let s' := update_object 0 (λ o, <["fs" := VModule (VStr "secret")]> o)
              Example.s0 in
  policy_of Example.resolve "./m" opts = Ok p
  ∧ trapped_only Example.requires_fs
  ∧ alike hidden Example.s0 s'
  ∧ (guardedRequire Example.resolve "./m" opts Example.requires_fs
       Example.s0).1 =
    (guardedRequire Example.resolve "./m" opts Example.requires_fs s').1.
Proof.
  intros opts p hidden s'.
  assert (policy_of Example.resolve "./m" opts = Ok p) as Hp by reflexivity.
  assert (alike hidden Example.s0 s') as Ha.
  { split; [reflexivity|]. split; [reflexivity|]. split; [reflexivity|].
    intros l k Hk. subst s'.
    destruct (decide ("fs" = k)) as [<-|Hne].
    - destruct Hk. unfold hidden.
      assert (forbidden Example.resolve p "fs" = Ok true) as ->
        by (vm_compute; reflexivity).
      discriminate.
    - symmetry. by apply update_object_insert_ne. }
  assert (trapped_only Example.requires_fs) as Ht.
  { apply trapped_only_load; [|done]. by apply trapped_only_builtin. }
  split; [exact Hp|]. split; [exact Ht|]. split; [exact Ha|].
  exact (proj1 (withheld_entries_unobservable Example.resolve "./m" opts
                  Example.requires_fs Example.s0 s' p Hp Ht Ha)).
Defined.

Lemma first_forbidden_access_fails_witness :
  let opts := Some (Options None (Some ["net"]) None) in
  let p := Policy (list_to_set []) (list_to_set ["net"]) false "./m" in
  ¬ invalid_combination opts
  ∧ policy_of Example.resolve "./m" opts = Ok p
  ∧ forbidden Example.resolve p "/app/m.js" = Ok true
  ∧ guardedRequire Example.resolve "./m" opts
      (CacheGet "/app/m.js" (λ _, Return VUndefined)) Example.s0 =
    (Err (ForbiddenAction "./m" "/app/m.js"),
     set_Module_cache (Module_cache Example.s0) (installed p Example.s0)).
Proof.
  intros opts p.
  assert (¬ invalid_combination opts) as Hv.
  { intros [[H _]|[H _]]; [by apply H|discriminate H]. }
  assert (policy_of Example.resolve "./m" opts = Ok p) as Hp by reflexivity.
  assert (forbidden Example.resolve p "/app/m.js" = Ok true) as Hk
    by (vm_compute; reflexivity).
  split; [exact Hv|]. split; [exact Hp|]. split; [exact Hk|].
  exact (proj1 (first_forbidden_access_fails Example.resolve "./m" opts p
                  "/app/m.js" VUndefined Example.s0
                  (λ _, Return VUndefined) (λ _, Return VUndefined)
                  (Return VUndefined) (Return VUndefined) Hv Hp Hk)).
Defined.

Lemma violation_can_be_caught_witness :
  let opts := Some (Options (Some ["fs"]) None None) in
  let p := Policy (list_to_set ["fs"]) (list_to_set []) false "./m" in
  ¬ invalid_combination opts
  ∧ policy_of Example.resolve "./m" opts = Ok p
  ∧ forbidden Example.resolve p "fs" = Ok true
  ∧ (guardedRequire Example.resolve "./m" opts
       (TryCatch (CacheGet "fs" Return) (λ _, Return (VStr "caught")))
       Example.s0).1 = Ok (VStr "caught").
Proof.
  intros opts p.
  assert (¬ invalid_combination opts) as Hv.
  { intros [[_ H]|[H _]]; [by apply H|discriminate H]. }
  assert (policy_of Example.resolve "./m" opts = Ok p) as Hp by reflexivity.
  assert (forbidden Example.resolve p "fs" = Ok true) as Hk
    by (vm_compute; reflexivity).
  split; [exact Hv|]. split; [exact Hp|]. split; [exact Hk|].
  exact (proj2 (violation_can_be_caught Example.resolve "./m" opts p "fs"
                  Example.s0 Return (λ _, Return (VStr "caught")) Hv Hp Hk)
           (VStr "caught")).
Defined.


Lemma untrapped_operations_bypass_policy_witness :
  let opts := Some (Options (Some ["fs"]) None None) in
  let p := Policy (list_to_set ["fs"]) (list_to_set []) false "./m" in
  let forged := VModule (VStr "forged") in
  ¬ invalid_combination opts
  ∧ policy_of Example.resolve "./m" opts = Ok p
  ∧ forbidden Example.resolve p "fs" = Ok true
  ∧ accepts Example.s0 (underlying (Module_cache Example.s0)) "fs"
  ∧ (guardedRequire Example.resolve "./m" opts
       (CacheDefineProperty "fs" forged (Return VUndefined)) Example.s0).1 =
    Ok VUndefined
  ∧ (heap (guardedRequire Example.resolve "./m" opts
             (CacheDefineProperty "fs" forged (Return VUndefined))
             Example.s0).2 !!! underlying (Module_cache Example.s0)) !! "fs" =
    Some forged.
Proof.
  intros opts p forged.
  assert (¬ invalid_combination opts) as Hv.
  { intros [[_ H]|[H _]]; [by apply H|discriminate H]. }
  assert (policy_of Example.resolve "./m" opts = Ok p) as Hp by reflexivity.
  assert (forbidden Example.resolve p "fs" = Ok true) as Hk
    by (vm_compute; reflexivity).
  assert (accepts Example.s0 (underlying (Module_cache Example.s0)) "fs")
    as Ha by (right; apply not_elem_of_empty).
  split; [exact Hv|]. split; [exact Hp|]. split; [exact Hk|].
  split; [exact Ha|].
  exact (proj1 (untrapped_operations_bypass_policy Example.resolve "./m" opts
                  p "fs" forged Example.s0 Hv Hp) Ha).
Defined.

(** ** The scenarios of the test suite, run on the concrete host *)

Example both_lists_rejected :
  guardedRequire Example.resolve "./m"
    (Some (Options (Some ["fs"]) (Some ["fs"]) None))
    Example.requires_fs Example.s0 = (Err BothListsError, Example.s0).
Proof. reflexivity. Qed.

Example bare_with_blacklist_rejected :
  guardedRequire Example.resolve "./m"
    (Some (Options (Some ["fs"]) None (Some true)))
    Example.requires_fs Example.s0 = (Err BareWithListError, Example.s0).
Proof. reflexivity. Qed.

Example blacklisted_fs_refused :
  guardedRequire Example.resolve "./m"
    (Some (Options (Some ["fs"]) None None))
    Example.requires_fs Example.s0 =
  (Err (ForbiddenAction "./m" "fs"), State (Plain 0) (heap Example.s0) 1 ∅).
Proof. vm_compute. reflexivity. Qed.

Example whitelist_refuses_the_module_itself :
  guardedRequire Example.resolve "./m"
    (Some (Options None (Some ["net"]) None))
    Example.requires_fs Example.s0 =
  (Err (ForbiddenAction "./m" "/app/m.js"),
   State (Plain 0) (heap Example.s0) 1 ∅).
Proof. vm_compute. reflexivity. Qed.

Example bare_refuses_fs :
  (guardedRequire Example.resolve "./m"
     (Some (Options None None (Some true)))
     Example.requires_fs Example.s0).1 = Err (ForbiddenAction "./m" "fs").
Proof. vm_compute. reflexivity. Qed.

Example unprotected_load_succeeds :
  (guardedRequire Example.resolve "./okay" None
     Example.okay Example.s0).1 = Ok (VStr "ok").
Proof. vm_compute. reflexivity. Qed.

Example unresolvable_entry_refused :
  guardedRequire Example.resolve "./m"
    (Some (Options (Some ["fs"; "missing"]) None None))
    Example.requires_fs Example.s0 =
  (Err (CannotFindModule "missing"), Example.s0).
Proof. reflexivity. Qed.

(** A guarded load nested in another: the inner invocation puts the outer
    view back, the outer one the plain cache, and the record the inner load
    cached is in the plain cache afterwards. *)
Example nested_loads_unwind :
  let r := guardedRequire Example.resolve "./outer"
             (Some (Options (Some ["fs"]) None None))
             Example.nested Example.s0 in
  r.1 = Ok (VBool true)
  ∧ Module_cache r.2 = Plain 0
  ∧ (heap r.2 !!! 0) !! "/app/inner.js" = Some (VModule (VStr "in")).
Proof. vm_compute. repeat split. Qed.
